(** * GoFig: the change-resolution engine of [change.go]

    A shallow embedding of [Change] and its methods ([SolveChange], the five
    [infer*] steps, [Present], [pushChange], [fetchCache]) together with the
    serialization layer they rely on.

    Conventions.
    - A Go [map[string]any] is [option (gmap string V)]: [None] is the nil
      map, [Some m] a map.  [len] is 0 on both nil and the empty map, while
      [== nil] holds on the first alone; [change.go] uses both tests.
    - A Go [error] is its message; a nil error is [None].
    - [[]byte] and [string] are both [string] (a sequence of bytes).
    - Functions of other files and of Go's libraries that [change.go] calls
      ([SerializeData], [json.Marshal], [ApplyDiffPatch], ...) are fields of
      the class [Deps]; the engine is verified for every implementation of
      them, and laws are assumed only where a statement names them. *)

From stdpp Require Import gmap strings list fin_maps.
From Stdlib Require Import ZArith Lia Ascii DecimalString DecimalZ.

Set Warnings "-register-all".
#[local] Open Scope Z_scope.
#[local] Open Scope nat_scope.

(** ** Go values *)

Abbreviation GoMap V := (option (gmap string V)).

Definition len {V : Type} (m : GoMap V) : nat :=
  match m with
  | None => 0
  | Some m => size m
  end.

Definition is_nil {V : Type} (m : GoMap V) : bool :=
  match m with
  | None => true
  | Some _ => false
  end.

Definition error : Type := string.

Inductive result (A : Type) : Type :=
| Ok (a : A)
| Err (e : error).
Arguments Ok {A} a.
Arguments Err {A} e.

(** An instant in time, as nanoseconds since the Unix epoch. *)
Definition Timestamp : Type := Z.

(** The canonical, JSON-safe value space. *)
Inductive Canonical : Type :=
| CNull
| CBool (b : bool)
| CNum (n : Z)
| CStr (s : string)
| CSeq (l : list Canonical)
| CMap (m : gmap string Canonical).

(** The rich value space: JSON-like values plus the three extensions. *)
Inductive RichValue : Type :=
| RNull
| RBool (b : bool)
| RNum (n : Z)
| RStr (s : string)
| RSeq (l : list RichValue)
| RMap (m : gmap string RichValue)
| RTime (t : Timestamp)
| RRef (path : string)
| RDelete.

(** Number of constructors of a value; the measure for induction through
    the nested lists and maps. *)
Fixpoint rsize (v : RichValue) : nat :=
  match v with
  | RSeq l => S (foldr (λ x n, rsize x + n) 0 l)
  | RMap m => S (map_fold (λ _ x n, rsize x + n) 0 m)
  | _ => 1
  end.

Fixpoint csize (c : Canonical) : nat :=
  match c with
  | CSeq l => S (foldr (λ x n, csize x + n) 0 l)
  | CMap m => S (map_fold (λ _ x n, csize x + n) 0 m)
  | _ => 1
  end.

(** ** Serialization layer *)

Module Serialization.

(** Modelled from the spec: the textual codec of instants ("RFC-3339
    instant") belongs to Go's [time] package and is not part of the
    sources; it is an interface here. *)
Class TimeCodec : Type := {
  formatTime : Timestamp → string;
  parseTime : string → option Timestamp
}.

(** Modelled from the spec: the codec is lossless ("must be losslessly
    representable as tagged strings", section 3): it reads back what it
    prints. *)
Definition codec_law `{TimeCodec} : Prop :=
  ∀ t : Timestamp, parseTime (formatTime t) = Some t.

(** Modelled from the spec: the wrapper token of timestamps (section 6, and
    "Expansions" in the README; the serialization of utils is not in the
    sources). *)
Definition timeToken : string := "<time>".

(** Modelled from the spec: the wrapper token of document references
    (section 6). *)
Definition refToken : string := "<ref>".

(** Modelled from the spec: the wrapper token of the delete marker
    (section 6). *)
Definition deleteToken : string := "<delete>".

(** Modelled from the spec: the "fixed literal payload" of the delete marker
    (sections 4.1 and 6). *)
Definition deletePayload : string := "!delete".

(** Modelled from the spec: a sentinel is its payload between two copies of
    its token (section 6: token + payload + token). *)
Definition wrap (tok payload : string) : string := tok +:+ payload +:+ tok.

(** Modelled from the spec: the serialized delete marker,
    [<delete>!delete<delete>] (section 6). *)
Definition deleteSentinel : string := wrap deleteToken deletePayload.

(** Modelled from the spec: reading a sentinel back.  [unwrap tok s] is the
    payload [p] when [s] is [tok], [p], [tok], and nothing otherwise. *)
Definition unwrap (tok s : string) : option string :=
  let payload :=
    String.substring (String.length tok) (String.length s - 2 * String.length tok) s in
  if decide (s = wrap tok payload) then Some payload else None.

Section Codec.
Context `{TimeCodec}.

(** Modelled from the spec: [SerializeData] of utils is not in the sources.
    Section 4.1: timestamps, references and the delete marker become tagged
    strings, mappings and sequences recurse, primitives pass through. *)
Fixpoint serialize (v : RichValue) : Canonical :=
  match v with
  | RNull => CNull
  | RBool b => CBool b
  | RNum n => CNum n
  | RStr s => CStr s
  | RSeq l => CSeq (serialize <$> l)
  | RMap m => CMap (serialize <$> m)
  | RTime t => CStr (wrap timeToken (formatTime t))
  | RRef p => CStr (wrap refToken p)
  | RDelete => CStr deleteSentinel
  end.

(** Modelled from the spec: the extension value a string stands for, if it
    has one of the three sentinel forms of section 6 (a [<time>] sentinel
    counts when its payload reads as an instant). *)
Definition desentinel (s : string) : option RichValue :=
  if decide (s = deleteSentinel) then Some RDelete
  else match unwrap timeToken s with
       | Some p => RTime <$> parseTime p
       | None => RRef <$> unwrap refToken s
       end.

(** Modelled from the spec: [DeSerializeData] of utils is not in the
    sources.  Section 4.1: it inverts [serialize] on the three extension
    kinds and is the identity on everything else. *)
Fixpoint deserialize (c : Canonical) : RichValue :=
  match c with
  | CNull => RNull
  | CBool b => RBool b
  | CNum n => RNum n
  | CStr s => default (RStr s) (desentinel s)
  | CSeq l => RSeq (deserialize <$> l)
  | CMap m => RMap (deserialize <$> m)
  end.

(** Whether [deserialize] reads a string as an extension value. *)
Definition is_sentinel (s : string) : bool :=
  match desentinel s with
  | Some _ => true
  | None => false
  end.

(** A rich value none of whose plain strings has a sentinel form. *)
Fixpoint plain (v : RichValue) : bool :=
  match v with
  | RStr s => negb (is_sentinel s)
  | RSeq l => forallb plain l
  | RMap m => map_fold (λ _ x b, plain x && b) true m
  | _ => true
  end.

(** The same on canonical values. *)
Fixpoint cplain (c : Canonical) : bool :=
  match c with
  | CStr s => negb (is_sentinel s)
  | CSeq l => forallb cplain l
  | CMap m => map_fold (λ _ x b, cplain x && b) true m
  | _ => true
  end.

End Codec.

(** The inclusion of canonical values into rich values. *)
Fixpoint embed (c : Canonical) : RichValue :=
  match c with
  | CNull => RNull
  | CBool b => RBool b
  | CNum n => RNum n
  | CStr s => RStr s
  | CSeq l => RSeq (embed <$> l)
  | CMap m => RMap (embed <$> m)
  end.

(** The extension kinds. *)
Definition is_extension (v : RichValue) : bool :=
  match v with
  | RTime _ | RRef _ | RDelete => true
  | _ => false
  end.

End Serialization.

(** ** Commands, the database client and external calls *)

(** [Command] is an [int] in Go: beside the five constants it has every
    other integer, which the code meets in the [default] branches of
    [commandString] and [pushChange], in the fall-through of the switch of
    [inferAfter] and in the tests of [inferCommand] and [inferPatch].
    [CommandOther n] is such a value: the integer [n + 5] for [0 <= n] and
    [n] itself for [n < 0].  (The bounds of [int] play no part: the code
    compares commands and never computes with them.) *)
Inductive Command : Type :=
| MigratorUnknown
| MigratorUpdate
| MigratorSet
| MigratorAdd
| MigratorDelete
| CommandOther (n : Z).

#[global] Instance Command_eq_dec : EqDecision Command.
Proof. solve_decision. Defined.

(** The integer of a command, as [iota] numbers the constants, and the
    command of an integer. *)
Definition Command_int (cmd : Command) : Z :=
  match cmd with
  | MigratorUnknown => 0
  | MigratorUpdate => 1
  | MigratorSet => 2
  | MigratorAdd => 3
  | MigratorDelete => 4
  | CommandOther n => if (0 <=? n)%Z then n + 5 else n
  end%Z.

Definition Command_of_int (z : Z) : Command :=
  match z with
  | 0 => MigratorUnknown
  | 1 => MigratorUpdate
  | 2 => MigratorSet
  | 3 => MigratorAdd
  | 4 => MigratorDelete
  | _ => CommandOther (if (5 <=? z)%Z then z - 5 else z)
  end%Z.

(** The three operations [pushChange] asks of the database client. *)
Inductive DbOp : Type :=
| OpUpdateDoc (path : string) (data : GoMap RichValue)
| OpSetDoc (path : string) (data : GoMap RichValue)
| OpDeleteDoc (path : string).

(** The [Firestore] client held by a Change.  Its state lives outside the
    program; what [change.go] sees of it is the error each call returns. *)
Record Firestore : Type := {
  respond : DbOp → option error
}.

(** Calls that leave [change.go] for the diff/patch adapter or the
    database, in the order they are made. *)
Inductive Event : Type :=
| EvApplyDiffPatch (doc patch : string)
| EvGetDiffPatch (a b : string)
| EvPrettyDiff (a b : GoMap Canonical)
| EvDatabase (op : DbOp).

(** What [change.go] calls and does not define: [SerializeData],
    [DeSerializeData], [ApplyDiffPatch], [GetDiffPatch], [PrettyDiff] and
    [clrTheme().blue] of the package's other files, [json.Marshal] and
    [json.Unmarshal] (into a nil [map[string]any], error dropped, as in
    [inferAfter]), and [fmt.Sprintf] applied to a format alone.
    [SerializeData] and [DeSerializeData] are taken with the type assertion
    [.(map[string]any)] that follows each of their calls: they return
    maps. *)
Class Deps : Type := {
  SerializeData : GoMap RichValue → Firestore → GoMap Canonical;
  DeSerializeData : GoMap Canonical → Firestore → GoMap RichValue;
  Marshal : GoMap Canonical → result string;
  Unmarshal : string → GoMap Canonical;
  ApplyDiffPatch : string → string → result string;
  GetDiffPatch : string → string → result string;
  PrettyDiff : GoMap Canonical → GoMap Canonical → result string;
  Sprintf : string → string;
  blue : string → string
}.

(** ** The Change record *)

Record Change : Type := {
  docPath : string;
  before : GoMap RichValue;
  patch : GoMap RichValue;
  after : GoMap RichValue;
  instruction : string;
  command : Command;
  prettyDiff : string;
  rollback : string;
  errState : option error;
  database : Firestore;
  cache : gmap string (GoMap Canonical)
}.

Definition set_patch (v : GoMap RichValue) (c : Change) : Change :=
  {| docPath := docPath c; before := before c; patch := v; after := after c;
     instruction := instruction c; command := command c;
     prettyDiff := prettyDiff c; rollback := rollback c;
     errState := errState c; database := database c; cache := cache c |}.

Definition set_after (v : GoMap RichValue) (c : Change) : Change :=
  {| docPath := docPath c; before := before c; patch := patch c; after := v;
     instruction := instruction c; command := command c;
     prettyDiff := prettyDiff c; rollback := rollback c;
     errState := errState c; database := database c; cache := cache c |}.

Definition set_command (v : Command) (c : Change) : Change :=
  {| docPath := docPath c; before := before c; patch := patch c; after := after c;
     instruction := instruction c; command := v;
     prettyDiff := prettyDiff c; rollback := rollback c;
     errState := errState c; database := database c; cache := cache c |}.

Definition set_prettyDiff (v : string) (c : Change) : Change :=
  {| docPath := docPath c; before := before c; patch := patch c; after := after c;
     instruction := instruction c; command := command c;
     prettyDiff := v; rollback := rollback c;
     errState := errState c; database := database c; cache := cache c |}.

Definition set_rollback (v : string) (c : Change) : Change :=
  {| docPath := docPath c; before := before c; patch := patch c; after := after c;
     instruction := instruction c; command := command c;
     prettyDiff := prettyDiff c; rollback := v;
     errState := errState c; database := database c; cache := cache c |}.

Definition set_errState (v : option error) (c : Change) : Change :=
  {| docPath := docPath c; before := before c; patch := patch c; after := after c;
     instruction := instruction c; command := command c;
     prettyDiff := prettyDiff c; rollback := rollback c;
     errState := v; database := database c; cache := cache c |}.

Definition set_cache (v : gmap string (GoMap Canonical)) (c : Change) : Change :=
  {| docPath := docPath c; before := before c; patch := patch c; after := after c;
     instruction := instruction c; command := command c;
     prettyDiff := prettyDiff c; rollback := rollback c;
     errState := errState c; database := database c; cache := v |}.

Definition errors_New (text : string) : error := text.

(** [NewChange], the Change factory.  [after], [prettyDiff] and [rollback]
    start at their zero values. *)
Definition NewChange (docPath : string) (before patch : GoMap RichValue)
    (command : Command) (instruction : string) (database : Firestore) : Change :=
  {| docPath := docPath; before := before; patch := patch; after := None;
     instruction := instruction; command := command;
     prettyDiff := ""; rollback := "";
     errState := Some (errors_New "Change has not yet been solved.");
     database := database; cache := ∅ |}.

(** ** Methods of Change: a state monad over the receiver

    A method runs on the Change it is called on ([self]) and appends the
    external calls it makes to [trace].  Go's [error] results are ordinary
    return values. *)

Record World : Type := {
  self : Change;
  trace : list Event
}.

Definition M (A : Type) : Type := World → A * World.

#[global] Instance M_ret : MRet M := λ A a w, (a, w).
#[global] Instance M_bind : MBind M :=
  λ A B k m w, let (a, w') := m w in k a w'.

(** Read the receiver. *)
Definition getc : M Change := λ w, (self w, w).

(** Assign to a field of the receiver. *)
Definition modc (f : Change → Change) : M unit :=
  λ w, (tt, {| self := f (self w); trace := trace w |}).

Definition emit (e : Event) : M unit :=
  λ w, (tt, {| self := self w; trace := trace w ++ [e] |}).

Section Methods.
Context `{Deps}.

Definition call_ApplyDiffPatch (doc patch : string) : M (result string) :=
  emit (EvApplyDiffPatch doc patch);; mret (ApplyDiffPatch doc patch).

Definition call_GetDiffPatch (a b : string) : M (result string) :=
  emit (EvGetDiffPatch a b);; mret (GetDiffPatch a b).

Definition call_PrettyDiff (a b : GoMap Canonical) : M (result string) :=
  emit (EvPrettyDiff a b);; mret (PrettyDiff a b).

Definition fetchCache (key : string) (data : GoMap RichValue) : M (GoMap Canonical) :=
  c ← getc;
  match cache c !! key with
  | Some sVar => mret sVar
  | None =>
      let sVar := SerializeData data (database c) in
      modc (set_cache (<[key := sVar]> (cache c)));;
      mret sVar
  end.

Definition beforeAfterCache : M (GoMap Canonical * GoMap Canonical) :=
  c ← getc;
  sBefore ← fetchCache "serialBefore" (before c);
  sAfter ← fetchCache "serialAfter" (after c);
  mret (sBefore, sAfter).

(** [inferAfter].  The switch has cases for Set, Add and Delete only; every
    other command leaves it and reaches the guard below. *)
Definition inferAfter : M (option error) :=
  c ← getc;
  match command c with
  | MigratorSet => modc (set_after (patch c));; mret None
  | MigratorAdd => modc (set_after (patch c));; mret None
  | MigratorDelete => modc (set_after (Some ∅));; mret None
  | _ =>
    if is_nil (before c) || (is_nil (patch c) && bool_decide (instruction c = ""))
    then mret (Some (errors_New "Need before and patch/instruction to infer after."))
    else
      sBefore ← fetchCache "sBefore" (before c);
      sPatch ← fetchCache "sPatch" (patch c);
      match Marshal sBefore with
      | Err err => mret (Some err)
      | Ok bm =>
        match (if (0 <? String.length (instruction c)) && (len (patch c) =? 0)
               then Ok (instruction c)
               else Marshal sPatch) with
        | Err err => mret (Some err)
        | Ok pm =>
          r ← call_ApplyDiffPatch bm pm;
          match r with
          | Err err => mret (Some err)
          | Ok after' =>
            let ua := Unmarshal after' in
            modc (set_after (DeSerializeData ua (database c)));;
            mret None
          end
        end
      end
  end.

Definition inferCommand : M (option error) :=
  c ← getc;
  match command c with
  | MigratorUnknown =>
    if is_nil (after c)
    then mret (Some (errors_New "Need after value to infer command."))
    else
      (if 0 <? len (after c)
       then modc (set_command MigratorSet)
       else modc (set_command MigratorDelete));;
      mret None
  | _ => mret None
  end.

Definition inferRollback : M (option error) :=
  c ← getc;
  if is_nil (before c) || is_nil (after c)
  then mret (Some (errors_New "Need before and after value to infer rollback."))
  else
    '(sBefore, sAfter) ← beforeAfterCache;
    match Marshal sAfter with
    | Err err => mret (Some err)
    | Ok a =>
      match Marshal sBefore with
      | Err err => mret (Some err)
      | Ok b =>
        r ← call_GetDiffPatch a b;
        match r with
        | Err err => mret (Some err)
        | Ok r => modc (set_rollback r);; mret None
        end
      end
    end.

Definition inferPatch : M unit :=
  c ← getc;
  if (len (patch c) =? 0) &&
     (bool_decide (command c = MigratorAdd) || bool_decide (command c = MigratorSet)
      || bool_decide (command c = MigratorUpdate))
  then modc (set_patch (after c))
  else mret tt.

Definition inferPrettyDiff : M (option error) :=
  c ← getc;
  if is_nil (before c) || is_nil (after c)
  then mret (Some (errors_New "Need before and after value to infer pretty diff."))
  else
    '(sBefore, sAfter) ← beforeAfterCache;
    r ← call_PrettyDiff sBefore sAfter;
    match r with
    | Err err => mret (Some err)
    | Ok s => modc (set_prettyDiff s);; mret None
    end.

Definition SolveChange : M (option error) :=
  modc (set_errState None);;
  err ← inferAfter;
  match err with
  | Some e => modc (set_errState (Some e));; mret (Some e)
  | None =>
    err ← inferCommand;
    match err with
    | Some e => modc (set_errState (Some e));; mret (Some e)
    | None =>
      err ← inferPrettyDiff;
      match err with
      | Some e => modc (set_errState (Some e));; mret (Some e)
      | None =>
        err ← inferRollback;
        match err with
        | Some e => modc (set_errState (Some e));; mret (Some e)
        | None => inferPatch;; mret None
        end
      end
    end
  end.

End Methods.

(** ** Presentation *)

(** The line feed and the double quote. *)
Definition nl : string := String (Ascii.ascii_of_nat 10) "".
Definition dq : string := String (Ascii.ascii_of_nat 34) "".

Definition commandString (c : Change) : string :=
  match command c with
  | MigratorUpdate => "update"
  | MigratorSet => "set"
  | MigratorAdd => "add"
  | MigratorDelete => "delete"
  | _ => "unknown"
  end.

(** [strings.ToUpper] on ASCII text, which is all [Present] gives it. *)
Definition upper_ascii (a : Ascii.ascii) : Ascii.ascii :=
  let n := Ascii.nat_of_ascii a in
  if (97 <=? n) && (n <=? 122) then Ascii.ascii_of_nat (n - 32) else a.

Fixpoint ToUpper (s : string) : string :=
  match s with
  | "" => ""
  | String a s' => String (upper_ascii a) (ToUpper s')
  end.

(** Left-to-right replacement of the non-overlapping occurrences of [old]:
    [skip] counts the characters of a matched occurrence still to be
    dropped, [budget] the replacements still allowed ([None]: no limit). *)
Fixpoint replace_scan (old new : string) (skip : nat) (budget : option nat)
    (s : string) : string :=
  match s with
  | "" => ""
  | String ch s' =>
    match skip with
    | S k => replace_scan old new k budget s'
    | O =>
      if negb (bool_decide (budget = Some 0)) && String.prefix old s
      then new +:+ replace_scan old new (String.length old - 1) (pred <$> budget) s'
      else String ch (replace_scan old new 0 budget s')
    end
  end.

(** [strings.Replace(s, old, new, n)] for a non-empty [old]; a negative [n]
    replaces every occurrence.  ([Present] passes non-empty tokens and -1.) *)
Definition Replace (s old new : string) (n : Z) : string :=
  if bool_decide (old = new) || bool_decide (n = 0%Z) then s
  else replace_scan old new 0 (if bool_decide (n < 0)%Z then None else Some (Z.to_nat n)) s.

(** The tokens [Present] removes, in the order of its [replace] slice. *)
Definition replace : list string := ["__timestamp__"; "__delete__"; "__docref__"].

Section Presentation.
Context `{Deps}.

(** [Present].  [fmt.Sprintf(" >> [%s]", x)] is written out as the
    concatenation it denotes; the [Sprintf] calls on a format alone go to
    [Deps]. *)
Definition Present (c : Change) : list string * string :=
  let out := "" in
  let header :=
    ["Target: " +:+ blue (docPath c);
     (" >> [" +:+ ToUpper (commandString c) +:+ "]") +:+ nl +:+ nl] in
  match errState c with
  | Some e =>
    let out := out +:+ Sprintf ("< !!! ERROR STATE !!! >" +:+ nl) in
    let out := out +:+ Sprintf (e +:+ nl) in
    (header, out)
  | None =>
    if String.length (prettyDiff c) =? 0
    then (header, out +:+ Sprintf ("< no changes >" +:+ nl))
    else
      let s :=
        foldl (λ s r, Replace (Replace s (dq +:+ r) "" (-1)) (r +:+ dq) "" (-1))
              (prettyDiff c) replace in
      (header, out +:+ Sprintf (s +:+ nl))
  end.

End Presentation.

(** ** Execution *)

Definition dispatch (db : Firestore) (op : DbOp) : M (option error) :=
  emit (EvDatabase op);; mret (respond db op).

Definition UpdateDoc (db : Firestore) (path : string) (data : GoMap RichValue) :
    M (option error) :=
  dispatch db (OpUpdateDoc path data).

Definition SetDoc (db : Firestore) (path : string) (data : GoMap RichValue) :
    M (option error) :=
  dispatch db (OpSetDoc path data).

Definition DeleteDoc (db : Firestore) (path : string) : M (option error) :=
  dispatch db (OpDeleteDoc path).

Definition pushChange (transformer : GoMap RichValue → GoMap RichValue) :
    M (option error) :=
  c ← getc;
  let data := transformer (patch c) in
  match command c with
  | MigratorUpdate => UpdateDoc (database c) (docPath c) data
  | MigratorSet => SetDoc (database c) (docPath c) data
  | MigratorAdd => SetDoc (database c) (docPath c) data
  | _ => DeleteDoc (database c) (docPath c)
  end.

(** ** The statements' vocabulary *)

Section Vocabulary.
Context `{Deps}.

(** The error of the guard in [inferAfter]. *)
Definition missing_inputs : error :=
  errors_New "Need before and patch/instruction to infer after.".

(** Section 4.2 in the spec's words: run the steps in order; the first one
    that fails sets [errState] and ends the run. *)
Fixpoint run_steps (steps : list (M (option error))) : M (option error) :=
  match steps with
  | [] => mret None
  | step :: rest =>
    err ← step;
    match err with
    | Some e => modc (set_errState (Some e));; mret (Some e)
    | None => run_steps rest
    end
  end.

Definition pipeline : list (M (option error)) :=
  [inferAfter; inferCommand; inferPrettyDiff; inferRollback; inferPatch;; mret None].

Definition resolve_spec : M (option error) :=
  modc (set_errState None);; run_steps pipeline.

(** The world in which the steps of [SolveChange] start. *)
Definition cleared (w : World) : World :=
  {| self := set_errState None (self w); trace := trace w |}.

(** The world [SolveChange] leaves when a step has failed with [e] in [w]. *)
Definition failed (e : error) (w : World) : World :=
  {| self := set_errState (Some e) (self w); trace := trace w |}.

(** The same world with the receiver's command replaced. *)
Definition with_command (cmd : Command) (w : World) : World :=
  {| self := set_command cmd (self w); trace := trace w |}.

(** What [fetchCache key data] yields on the receiver [c]: the memoized
    entry, and the serialization of [data] when there is none. *)
Definition cached (key : string) (data : GoMap RichValue) (c : Change) :
    GoMap Canonical :=
  default (SerializeData data (database c)) (cache c !! key).

(** The payload [inferAfter] hands to [ApplyDiffPatch]: the instruction
    text when there is one and the patch has no field, the marshalled
    patch otherwise. *)
Definition patch_payload (c : Change) : result string :=
  if (0 <? String.length (instruction c)) && (len (patch c) =? 0)
  then Ok (instruction c)
  else Marshal (cached "sPatch" (patch c) c).

(** The four steps that can fail. *)
Definition fallible : list (M (option error)) :=
  [inferAfter; inferCommand; inferPrettyDiff; inferRollback].

(** Modelled from the spec: the law of the structural diff/patch pair, which
    lives in utils and its libraries.  Glossary: the pair "computes a patch
    describing the transformation from one JSON-like value to another, and
    applies such a patch to reproduce the target value" - up to the JSON
    text of the target, that is, to what it unmarshals to. *)
Definition diff_apply_law : Prop :=
  ∀ a b r : string, GetDiffPatch a b = Ok r →
    ∃ b', ApplyDiffPatch a r = Ok b' ∧ Unmarshal b' = Unmarshal b.

(** The same law at two given documents: the patch that [GetDiffPatch]
    computes from [a] to [b], applied to [a], gives a document that
    unmarshals as [b] does. *)
Definition inverts_at (a b : string) : Prop :=
  ∀ r : string, GetDiffPatch a b = Ok r →
    ∃ b', ApplyDiffPatch a r = Ok b' ∧ Unmarshal b' = Unmarshal b.

(** A format with no [%] in it. *)
Fixpoint verb_free (s : string) : bool :=
  match s with
  | "" => true
  | String a s' => negb (bool_decide (a = Ascii.ascii_of_nat 37)) && verb_free s'
  end.

(** [fmt.Sprintf] returns a format with no verb unchanged. *)
Definition Sprintf_verbatim : Prop :=
  ∀ s : string, verb_free s = true → Sprintf s = s.

End Vocabulary.

Definition is_ApplyDiffPatch (e : Event) : bool :=
  match e with
  | EvApplyDiffPatch _ _ => true
  | _ => false
  end.

(** A text with no underscore in it. *)
Fixpoint underscore_free (s : string) : bool :=
  match s with
  | "" => true
  | String a s' => negb (bool_decide (a = "_"%char)) && underscore_free s'
  end.

(** [s] with every occurrence of [tok] removed. *)
Definition strip (tok s : string) : string := Replace s tok "" (-1).

(** What section 4.2 asks of [Present]: the diff with the wrapper tokens of
    section 6 removed. *)
Definition strip_wrappers (s : string) : string :=
  strip Serialization.deleteToken
    (strip Serialization.refToken (strip Serialization.timeToken s)).

(** ** A concrete setting for examples *)

Module Demo.
Import Serialization.

(** A codec that prints an instant as its decimal offset. *)
Definition decimalCodec : TimeCodec :=
  {| formatTime t := NilEmpty.string_of_int (Z.to_int t);
     parseTime s := Z.of_int <$> NilEmpty.int_of_string s |}.

Definition dquote : Ascii.ascii := Ascii.ascii_of_nat 34.
Definition bslash : Ascii.ascii := Ascii.ascii_of_nat 92.

Fixpoint json_escape (s : string) : string :=
  match s with
  | "" => ""
  | String a s' =>
    if bool_decide (a = dquote) || bool_decide (a = bslash)
    then String bslash (String a (json_escape s'))
    else String a (json_escape s')
  end.

Definition json_string (s : string) : string := dq +:+ json_escape s +:+ dq.

Definition join_commas (l : list string) : string :=
  match l with
  | [] => ""
  | x :: xs => foldl (λ acc y, acc +:+ "," +:+ y) x xs
  end.

(** A JSON printer (no white space, members in the map's own order). *)
Fixpoint print_json (c : Canonical) : string :=
  match c with
  | CNull => "null"
  | CBool true => "true"
  | CBool false => "false"
  | CNum n => NilEmpty.string_of_int (Z.to_int n)
  | CStr s => json_string s
  | CSeq l => "[" +:+ join_commas (print_json <$> l) +:+ "]"
  | CMap m =>
    "{" +:+ join_commas
      (map_fold (λ k v acc, (json_string k +:+ ":" +:+ print_json v) :: acc) [] m)
    +:+ "}"
  end.

Definition print_doc (m : GoMap Canonical) : string :=
  match m with
  | None => "null"
  | Some m => print_json (CMap m)
  end.

(** The body of a JSON string, up to its closing quote. *)
Fixpoint parse_chars (s : string) : option (string * string) :=
  match s with
  | "" => None
  | String a rest =>
    if bool_decide (a = dquote) then Some ("", rest)
    else if bool_decide (a = bslash) then
      match rest with
      | String b rest' => '(body, tl) ← parse_chars rest'; Some (String b body, tl)
      | "" => None
      end
    else '(body, tl) ← parse_chars rest; Some (String a body, tl)
  end.

Definition is_number_char (a : Ascii.ascii) : bool :=
  bool_decide (a = "-"%char) ||
  ((48 <=? Ascii.nat_of_ascii a) && (Ascii.nat_of_ascii a <=? 57)).

Fixpoint span_number (s : string) : string * string :=
  match s with
  | "" => ("", "")
  | String a s' =>
    if is_number_char a
    then let (digits, tl) := span_number s' in (String a digits, tl)
    else ("", s)
  end.

Fixpoint strip_prefix (p s : string) : option string :=
  match p, s with
  | "", _ => Some s
  | String a p', String b s' => if bool_decide (a = b) then strip_prefix p' s' else None
  | _, _ => None
  end.

(** A recursive-descent JSON parser for the printer's output; [fuel] bounds
    the nesting and the number of elements. *)
Fixpoint parse_value (fuel : nat) (s : string) : option (Canonical * string) :=
  match fuel with
  | O => None
  | S fuel' =>
    match s with
    | "" => None
    | String a rest =>
      if bool_decide (a = dquote) then
        '(body, tl) ← parse_chars rest; Some (CStr body, tl)
      else if bool_decide (a = "["%char) then
        match rest with
        | String "]"%char tl => Some (CSeq [], tl)
        | _ =>
          '(vs, tl) ←
            (fix elems (n : nat) (s : string) {struct n} :
                 option (list Canonical * string) :=
               match n with
               | O => None
               | S n' =>
                 '(v, tl) ← parse_value fuel' s;
                 match tl with
                 | String ","%char tl' =>
                   '(vs, tl'') ← elems n' tl'; Some (v :: vs, tl'')
                 | String "]"%char tl' => Some ([v], tl')
                 | _ => None
                 end
               end) fuel' rest;
          Some (CSeq vs, tl)
        end
      else if bool_decide (a = "{"%char) then
        match rest with
        | String "}"%char tl => Some (CMap ∅, tl)
        | _ =>
          '(kvs, tl) ←
            (fix members (n : nat) (s : string) {struct n} :
                 option (list (string * Canonical) * string) :=
               match n with
               | O => None
               | S n' =>
                 s1 ← strip_prefix dq s;
                 '(k, s2) ← parse_chars s1;
                 s3 ← strip_prefix ":" s2;
                 '(v, s4) ← parse_value fuel' s3;
                 match s4 with
                 | String ","%char s5 =>
                   '(kvs, s6) ← members n' s5; Some ((k, v) :: kvs, s6)
                 | String "}"%char s5 => Some ([(k, v)], s5)
                 | _ => None
                 end
               end) fuel' rest;
          Some (CMap (list_to_map kvs), tl)
        end
      else if is_number_char a then
        let (digits, tl) := span_number s in
        n ← NilEmpty.int_of_string digits; Some (CNum (Z.of_int n), tl)
      else
        match strip_prefix "null" s, strip_prefix "true" s, strip_prefix "false" s with
        | Some tl, _, _ => Some (CNull, tl)
        | _, Some tl, _ => Some (CBool true, tl)
        | _, _, Some tl => Some (CBool false, tl)
        | _, _, _ => None
        end
    end
  end.

(** [json.Unmarshal] into a nil map: the map of a JSON object, and nil for
    anything else. *)
Definition parse_doc (s : string) : GoMap Canonical :=
  match parse_value (S (String.length s)) s with
  | Some (CMap m, "") => Some m
  | _ => None
  end.

(** Modelled from the spec: [GetDiffPatch] of utils is not in the sources.
    Section 4.2 lets the implementation choose "an equivalent
    whole-document diff/apply primitive": the patch that leads from [a] to
    [b] is the document [b].  Text that is not a JSON object is refused. *)
Definition wholeDocDiff (a b : string) : result string :=
  match parse_doc a, parse_doc b with
  | Some _, Some _ => Ok b
  | _, _ => Err (errors_New "diff: malformed document")
  end.

(** Modelled from the spec: [ApplyDiffPatch] of utils is not in the sources.
    The whole-document primitive of section 4.2: applying a patch gives the
    document the patch carries.  Text that is not a JSON object is
    refused. *)
Definition wholeDocApply (doc patch : string) : result string :=
  match parse_doc doc, parse_doc patch with
  | Some _, Some _ => Ok patch
  | _, _ => Err (errors_New "apply: malformed document or patch")
  end.

(** A display of the two documents when they differ. *)
Definition showDiff (a b : GoMap Canonical) : result string :=
  if bool_decide (print_doc a = print_doc b) then Ok ""
  else Ok ("- " +:+ print_doc a +:+ nl +:+ "+ " +:+ print_doc b).

(** Modelled from the spec: [SerializeData] on the fields of a document,
    section 4.1: "mappings ... recurse field-by-field".  A nil map has no
    fields. *)
Definition serializeFields (m : GoMap RichValue) : GoMap Canonical :=
  Some (@serialize decimalCodec <$> default ∅ m).

(** Modelled from the spec: [DeSerializeData] on the fields of a document,
    section 4.1, field by field. *)
Definition deserializeFields (m : GoMap Canonical) : GoMap RichValue :=
  Some (@deserialize decimalCodec <$> default ∅ m).

(** The setting of the examples: the serialization of section 4.1 with the
    decimal codec, the JSON printer and parser above, the whole-document
    diff/patch pair, and a [Sprintf] that returns its format (as
    [fmt.Sprintf] does when the format has no verb) with no colouring. *)
Definition deps : Deps :=
  {| SerializeData m _ := serializeFields m;
     DeSerializeData m _ := deserializeFields m;
     Marshal m := Ok (print_doc m);
     Unmarshal := parse_doc;
     ApplyDiffPatch := wholeDocApply;
     GetDiffPatch := wholeDocDiff;
     PrettyDiff := showDiff;
     Sprintf s := s;
     blue s := s |}.

(** A client whose calls all succeed. *)
Definition client : Firestore := {| respond _ := None |}.

Definition fresh (c : Change) : World := {| self := c; trace := [] |}.

(** The world after resolving [c] in this setting. *)
Definition resolved (c : Change) : World := (@SolveChange deps (fresh c)).2.

(** A rich value with every kind of constituent. *)
Definition sampleValue : RichValue :=
  RMap {[ "name" := RStr "fig"; "count" := RNum 3; "gone" := RDelete;
          "at" := RTime 1683985480522%Z;
          "refs" := RSeq [RRef "fig/fog"; RNull; RBool true;
                          RMap {[ "prev" := RDelete ]}] ]}.

(** Scenario A of the spec: a patch on a known document. *)
Definition scenarioA : Change :=
  NewChange "fig/fog" (Some {[ "foo" := RStr "bar" ]})
    (Some {[ "foo" := RStr "baz" ]}) MigratorUnknown "" client.

(** Scenario B: an addition. *)
Definition scenarioB : Change :=
  NewChange "fig/fog" (Some ∅) (Some {[ "x" := RNum 1 ]}) MigratorAdd "" client.

(** Scenario C: a deletion, without patch. *)
Definition scenarioC : Change :=
  NewChange "fig/fog" (Some {[ "a" := RNum 1 ]}) None MigratorDelete "" client.

(** Scenario D: a patch and no before. *)
Definition scenarioD : Change :=
  NewChange "fig/fog" None (Some {[ "y" := RNum 2 ]}) MigratorUnknown "" client.

(** A patch that is an empty map, not nil, and no instruction. *)
Definition emptyPatch : Change :=
  NewChange "fig/fog" (Some ∅) (Some ∅) MigratorUnknown "" client.

(** An update given by an instruction alone. *)
Definition updateByInstruction : Change :=
  NewChange "fig/fog" (Some {[ "a" := RNum 1 ]}) None MigratorUpdate
    ("{" +:+ dq +:+ "a" +:+ dq +:+ ":2}") client.

(** An update with a patch and no before. *)
Definition updateWithoutBefore : Change :=
  NewChange "fig/fog" None (Some {[ "a" := RNum 2 ]}) MigratorUpdate "" client.

(** An instruction that is not a patch. *)
Definition badInstruction : Change :=
  NewChange "fig/fog" (Some ∅) None MigratorUnknown "oops" client.

(** Scenario E: a patch with a delete marker and a document reference. *)
Definition scenarioE : Change :=
  NewChange "fig/fog" (Some ∅)
    (Some {[ "prev" := RDelete; "ref" := RRef "fig/fog" ]}) MigratorAdd "" client.

(** A diff that tags the delete marker with the token [Present] removes. *)
Definition legacyDiff : string :=
  "+ " +:+ dq +:+ "prev" +:+ dq +:+ ": " +:+ dq
  +:+ "__delete__!delete__delete__" +:+ dq.

Definition resolvedLegacy : Change :=
  set_errState None (set_prettyDiff legacyDiff scenarioB).

(** A resolved Change whose diff shows a timestamp in the README's form. *)
Definition taggedDiff : string :=
  "+ " +:+ dq +:+ "time" +:+ dq +:+ ": " +:+ dq
  +:+ "<time>2023-05-13T13:44:40.522Z<time>" +:+ dq.

Definition resolvedWithTimestamp : Change :=
  set_errState None (set_prettyDiff taggedDiff scenarioB).

End Demo.

(** ** A setting with a field-wise diff/patch pair *)

Module Fieldwise.
Import Demo.

(** Modelled from the spec: [GetDiffPatch] of utils is not in the sources.
    Glossary: the pair "computes a patch describing the transformation from
    one JSON-like value to another".  Here the patch from [a] to [b] is an
    object with the fields of [b] that [a] lacks or holds with another
    value, and [null] for the fields of [a] that [b] lacks. *)
Definition fieldDiff (a b : gmap string Canonical) : gmap string Canonical :=
  merge (λ x y,
           match x, y with
           | Some u, Some v =>
             if bool_decide (print_json u = print_json v) then None else Some v
           | None, Some v => Some v
           | Some _, None => Some CNull
           | None, None => None
           end) a b.

(** Modelled from the spec: [ApplyDiffPatch] of utils is not in the sources.
    Glossary: the pair "applies such a patch to reproduce the target value".
    A field of the patch replaces the field of the document, [null]
    removes it, and the other fields of the document stay. *)
Definition fieldApply (a p : gmap string Canonical) : gmap string Canonical :=
  merge (λ x y,
           match y with
           | Some CNull => None
           | Some v => Some v
           | None => x
           end) a p.

Definition fieldwiseDiff (a b : string) : result string :=
  match parse_doc a, parse_doc b with
  | Some a, Some b => Ok (print_doc (Some (fieldDiff a b)))
  | _, _ => Err (errors_New "diff: malformed document")
  end.

Definition fieldwiseApply (doc patch : string) : result string :=
  match parse_doc doc, parse_doc patch with
  | Some a, Some p => Ok (print_doc (Some (fieldApply a p)))
  | _, _ => Err (errors_New "apply: malformed document or patch")
  end.

(** The setting of [Demo] with the field-wise pair in place of the
    whole-document one. *)
Definition deps : Deps :=
  {| SerializeData m _ := serializeFields m;
     DeSerializeData m _ := deserializeFields m;
     Marshal m := Ok (print_doc m);
     Unmarshal := parse_doc;
     ApplyDiffPatch := fieldwiseApply;
     GetDiffPatch := fieldwiseDiff;
     PrettyDiff := showDiff;
     Sprintf s := s;
     blue s := s |}.

(** The world after resolving [c] in this setting, and after resolving it
    a second time. *)
Definition resolved (c : Change) : World := (@SolveChange deps (fresh c)).2.



End Fieldwise.


(** ** Vocabulary of the further properties *)

(** The cache keys a resolution may fill. *)
Definition resolution_keys : list string :=
  ["sBefore"; "sPatch"; "serialBefore"; "serialAfter"].

(** Calls that reach the database client. *)
Definition is_database (e : Event) : bool :=
  match e with
  | EvDatabase _ => true
  | _ => false
  end.

(** The error of the guard in [inferPrettyDiff]. *)
Definition missing_for_diff : error :=
  errors_New "Need before and after value to infer pretty diff.".

(** The body [Present] gives an errored Change. *)
Definition error_block (e : error) : string :=
  "< !!! ERROR STATE !!! >" +:+ nl +:+ e +:+ nl.

(** The cache [k'] keeps every entry of [k] and differs from it under the
    keys of [keys] only. *)
Definition cache_extends (keys : list string)
    (k k' : gmap string (GoMap Canonical)) : Prop :=
  (∀ key v, k !! key = Some v → k' !! key = Some v) ∧
  (∀ key, key ∉ keys → k' !! key = k !! key).

(** The name [Present] shows a command under. *)
Definition shown_command (cmd : Command) : string :=
  match cmd with
  | MigratorUpdate => "UPDATE"
  | MigratorSet => "SET"
  | MigratorAdd => "ADD"
  | MigratorDelete => "DELETE"
  | MigratorUnknown | CommandOther _ => "UNKNOWN"
  end.

(** The names a resolved command is shown under. *)
Definition shown_commands : list string := ["UPDATE"; "SET"; "ADD"; "DELETE"].

Definition set_instruction (v : string) (c : Change) : Change :=
  {| docPath := docPath c; before := before c; patch := patch c; after := after c;
     instruction := v; command := command c;
     prettyDiff := prettyDiff c; rollback := rollback c;
     errState := errState c; database := database c; cache := cache c |}.

(** The same world with the receiver's instruction replaced. *)
Definition with_instruction (i : string) (w : World) : World :=
  {| self := set_instruction i (self w); trace := trace w |}.

Definition set_database (v : Firestore) (c : Change) : Change :=
  {| docPath := docPath c; before := before c; patch := patch c; after := after c;
     instruction := instruction c; command := command c;
     prettyDiff := prettyDiff c; rollback := rollback c;
     errState := errState c; database := v; cache := cache c |}.

(** The same world with the receiver's client replaced. *)
Definition with_database (db : Firestore) (w : World) : World :=
  {| self := set_database db (self w); trace := trace w |}.

(** Two clients that [SerializeData] and [DeSerializeData] treat alike. *)
Definition serialized_alike `{Deps} (db db' : Firestore) : Prop :=
  (∀ m, SerializeData m db' = SerializeData m db) ∧
  (∀ m, DeSerializeData m db' = DeSerializeData m db).

(** The world [w] after further external calls [evs]. *)
Definition after_calls (evs : list Event) (w : World) : World :=
  {| self := self w; trace := trace w ++ evs |}.

(** ** Further cases of the concrete setting *)

Module Cases.
Import Demo.

(** A Set on a document whose [before] was not given. *)
Definition setWithoutBefore : Change :=
  NewChange "fig/fog" None (Some {[ "a" := RNum 2 ]}) MigratorSet "" client.

(** The setting of [Demo] with a diff primitive that refuses every pair. *)
Definition refusingDiff : Deps :=
  {| SerializeData m _ := serializeFields m;
     DeSerializeData m _ := deserializeFields m;
     Marshal m := Ok (print_doc m);
     Unmarshal := parse_doc;
     ApplyDiffPatch := wholeDocApply;
     GetDiffPatch _ _ := Err (errors_New "diff: refused");
     PrettyDiff := showDiff;
     Sprintf s := s;
     blue s := s |}.

(** Scenario A with the command 7, which is none of the constants. *)
Definition outOfRange : Change :=
  NewChange "fig/fog" (Some {[ "foo" := RStr "bar" ]})
    (Some {[ "foo" := RStr "baz" ]}) (Command_of_int 7) "" client.

(** A client whose calls all fail. *)
Definition downClient : Firestore :=
  {| respond _ := Some (errors_New "unavailable") |}.

(** Scenario B after [inferAfter]: [after] is the patch. *)
Definition additionWithAfter : World :=
  fresh (set_after (patch scenarioB) scenarioB).

End Cases.


(** * Facts about the serialization layer *)

Import Serialization.

Lemma append_nil_l (s : string) : "" +:+ s = s.
Proof. reflexivity. Qed.

Lemma append_cons (x : Ascii.ascii) (s t : string) :
  String x s +:+ t = String x (s +:+ t).
Proof. reflexivity. Qed.

Lemma substring_app_head (b c : string) :
  String.substring 0 (String.length b) (b +:+ c) = b.
Proof.
  induction b as [|y b IHb].
  - rewrite append_nil_l. by destruct c.
  - rewrite append_cons. simpl. by rewrite IHb.
Qed.

Lemma substring_app_mid (a b c : string) :
  String.substring (String.length a) (String.length b) (a +:+ b +:+ c) = b.
Proof.
  induction a as [|x a IH].
  - rewrite append_nil_l. apply substring_app_head.
  - rewrite append_cons. exact IH.
Qed.

Lemma length_app (s t : string) :
  String.length (s +:+ t) = String.length s + String.length t.
Proof.
  induction s as [|x s IH]; [done|].
  rewrite append_cons. simpl. by rewrite IH.
Qed.

Lemma length_wrap (tok p : string) :
  String.length (wrap tok p) = String.length tok + String.length p + String.length tok.
Proof. unfold wrap. rewrite !length_app. lia. Qed.

Lemma unwrap_wrap (tok p : string) : unwrap tok (wrap tok p) = Some p.
Proof.
  unfold unwrap. rewrite length_wrap.
  replace (String.length tok + String.length p + String.length tok
           - 2 * String.length tok) with (String.length p) by lia.
  unfold wrap. rewrite substring_app_mid.
  by rewrite decide_True.
Qed.

Lemma unwrap_Some (tok s p : string) : unwrap tok s = Some p → s = wrap tok p.
Proof. unfold unwrap. case_decide; congruence. Qed.

Lemma map_fold_andb {V} (f : V → bool) (m : gmap string V) :
  map_fold (λ _ x b, f x && b) true m = true ↔
  ∀ k x, m !! k = Some x → f x = true.
Proof.
  apply (map_fold_weak_ind (λ r m, r = true ↔ ∀ k x, m !! k = Some x → f x = true)).
  - split; [|done]. intros _ k x. by rewrite lookup_empty.
  - intros i x m' r Hi [IH1 IH2]. split.
    + intros [Hx Hm]%andb_true_iff k y. rewrite lookup_insert.
      case_decide; [congruence|]. by apply IH1.
    + intros Hall. apply andb_true_iff. split.
      * apply (Hall i). by rewrite lookup_insert_eq.
      * apply IH2. intros k y Hk. apply (Hall k).
        rewrite lookup_insert_ne; [done|]. congruence.
Qed.

Lemma rsize_lookup (m : gmap string RichValue) k v :
  m !! k = Some v → rsize v < rsize (RMap m).
Proof.
  simpl. revert k v.
  apply (map_fold_weak_ind (λ r m, ∀ k v, m !! k = Some v → rsize v < S r)).
  - intros k v. by rewrite lookup_empty.
  - intros i x m' r Hi IH k v. rewrite lookup_insert. case_decide.
    + intros [= ->]. lia.
    + intros Hk. specialize (IH _ _ Hk). lia.
Qed.

Lemma rsize_elem (l : list RichValue) v : v ∈ l → rsize v < rsize (RSeq l).
Proof.
  simpl. induction 1; simpl; lia.
Qed.

Lemma csize_lookup (m : gmap string Canonical) k v :
  m !! k = Some v → csize v < csize (CMap m).
Proof.
  simpl. revert k v.
  apply (map_fold_weak_ind (λ r m, ∀ k v, m !! k = Some v → csize v < S r)).
  - intros k v. by rewrite lookup_empty.
  - intros i x m' r Hi IH k v. rewrite lookup_insert. case_decide.
    + intros [= ->]. lia.
    + intros Hk. specialize (IH _ _ Hk). lia.
Qed.

Lemma csize_elem (l : list Canonical) v : v ∈ l → csize v < csize (CSeq l).
Proof.
  simpl. induction 1; simpl; lia.
Qed.

(** Induction through the nested sequences and mappings. *)
Lemma RichValue_nested_ind (P : RichValue → Prop) :
  P RNull → (∀ b, P (RBool b)) → (∀ n, P (RNum n)) → (∀ s, P (RStr s)) →
  (∀ l, Forall P l → P (RSeq l)) →
  (∀ m, map_Forall (λ _, P) m → P (RMap m)) →
  (∀ t, P (RTime t)) → (∀ p, P (RRef p)) → P RDelete →
  ∀ v, P v.
Proof.
  intros Hnull Hbool Hnum Hstr Hseq Hmap Htime Href Hdel v.
  remember (rsize v) as n eqn:Hn. revert v Hn.
  induction n as [n IH] using lt_wf_ind. intros v ->.
  destruct v; eauto.
  - apply Hseq, Forall_forall. intros x Hx.
    apply (IH (rsize x)); [by apply rsize_elem|done].
  - apply Hmap. intros k x Hk.
    apply (IH (rsize x)); [by eapply rsize_lookup|done].
Qed.

Lemma Canonical_nested_ind (P : Canonical → Prop) :
  P CNull → (∀ b, P (CBool b)) → (∀ n, P (CNum n)) → (∀ s, P (CStr s)) →
  (∀ l, Forall P l → P (CSeq l)) →
  (∀ m, map_Forall (λ _, P) m → P (CMap m)) →
  ∀ c, P c.
Proof.
  intros Hnull Hbool Hnum Hstr Hseq Hmap c.
  remember (csize c) as n eqn:Hn. revert c Hn.
  induction n as [n IH] using lt_wf_ind. intros c ->.
  destruct c; eauto.
  - apply Hseq, Forall_forall. intros x Hx.
    apply (IH (csize x)); [by apply csize_elem|done].
  - apply Hmap. intros k x Hk.
    apply (IH (csize x)); [by eapply csize_lookup|done].
Qed.

Section CodecFacts.
Context `{TimeCodec}.

Lemma desentinel_delete : desentinel deleteSentinel = Some RDelete.
Proof. unfold desentinel. by rewrite decide_True. Qed.

Lemma desentinel_time (t : Timestamp) :
  desentinel (wrap timeToken (formatTime t)) = RTime <$> parseTime (formatTime t).
Proof.
  unfold desentinel. rewrite decide_False by (intros [=]).
  by rewrite unwrap_wrap.
Qed.

Lemma desentinel_ref (p : string) : desentinel (wrap refToken p) = Some (RRef p).
Proof.
  unfold desentinel. rewrite decide_False by (intros [=]).
  destruct (unwrap timeToken (wrap refToken p)) as [q|] eqn:Hq.
  - apply unwrap_Some in Hq. discriminate Hq.
  - by rewrite unwrap_wrap.
Qed.

Lemma not_sentinel (s : string) : is_sentinel s = false → desentinel s = None.
Proof. unfold is_sentinel. by destruct (desentinel s). Qed.

Lemma roundtrip_extension (v : RichValue) :
  codec_law → is_extension v = true → deserialize (serialize v) = v.
Proof.
  intros Hlaw Hv. destruct v; try discriminate Hv; cbn [serialize deserialize].
  - by rewrite desentinel_time, Hlaw.
  - by rewrite desentinel_ref.
  - by rewrite desentinel_delete.
Qed.

Lemma roundtrip_plain (v : RichValue) :
  codec_law → plain v = true → deserialize (serialize v) = v.
Proof.
  intros Hlaw. induction v as [| | |s|l IH|m IH|t|p|] using RichValue_nested_ind;
    intros Hv; cbn [serialize deserialize]; try done.
  - apply negb_true_iff, not_sentinel in Hv. by rewrite Hv.
  - f_equal. simpl in Hv. rewrite forallb_forall in Hv.
    rewrite <- list_fmap_compose. rewrite <- (list_fmap_id l) at 2.
    apply list_fmap_ext. intros i x Hx. simpl.
    rewrite Forall_forall in IH. apply list_elem_of_lookup_2 in Hx.
    apply IH; [done|]. by apply Hv, list_elem_of_In.
  - f_equal. simpl in Hv. rewrite map_fold_andb in Hv.
    apply map_eq. intros k. rewrite !lookup_fmap.
    destruct (m !! k) as [x|] eqn:Hk; simpl; [|done].
    f_equal. apply (IH k x Hk). by apply (Hv k).
  - by rewrite desentinel_time, Hlaw.
  - by rewrite desentinel_ref.
Qed.

Lemma deserialize_embed (c : Canonical) :
  cplain c = true → deserialize c = embed c.
Proof.
  induction c as [| | |s|l IH|m IH] using Canonical_nested_ind;
    intros Hc; cbn [deserialize embed]; try done.
  - apply negb_true_iff, not_sentinel in Hc. by rewrite Hc.
  - f_equal. simpl in Hc. rewrite forallb_forall in Hc.
    apply list_fmap_ext. intros i x Hx.
    rewrite Forall_forall in IH. apply list_elem_of_lookup_2 in Hx.
    apply IH; [done|]. by apply Hc, list_elem_of_In.
  - f_equal. simpl in Hc. rewrite map_fold_andb in Hc.
    apply map_fmap_ext. intros k x Hk. apply (IH k x Hk). by apply (Hc k).
Qed.

End CodecFacts.

(** * Commands as integers *)

Lemma Command_of_int_int (cmd : Command) : Command_of_int (Command_int cmd) = cmd.
Proof.
  destruct cmd as [| | | | |n]; try reflexivity. simpl.
  destruct (0 <=? n)%Z eqn:Hn.
  - apply Z.leb_le in Hn. unfold Command_of_int.
    destruct (n + 5)%Z as [|q|q] eqn:Hq; try lia.
    assert ((5 <=? Z.pos q)%Z = true) as -> by (apply Z.leb_le; lia).
    do 3 (destruct q as [q|q|]; try lia); f_equal; lia.
  - apply Z.leb_gt in Hn. unfold Command_of_int.
    destruct n as [|q|q]; try lia. f_equal.
Qed.

Lemma Command_int_of_int (z : Z) : Command_int (Command_of_int z) = z.
Proof.
  unfold Command_of_int.
  destruct z as [|q|q]; [reflexivity| |].
  - do 3 (destruct q as [q|q|]; try reflexivity);
      simpl; repeat case_match; lia.
  - simpl. reflexivity.
Qed.

(** * Facts about the resolution engine *)

(** Unfold one layer of the monad, leaving the methods folded. *)
Ltac unfold_monad :=
  unfold mbind, M_bind, mret, M_ret, modc, getc, emit in *;
  cbv beta iota zeta in *.

(** Unfold a method and case on every test it makes. *)
Ltac run_step :=
  unfold inferAfter, inferCommand, inferPrettyDiff, inferRollback, inferPatch,
    beforeAfterCache, fetchCache, call_ApplyDiffPatch, call_GetDiffPatch,
    call_PrettyDiff in *;
  unfold_monad; simpl in *;
  repeat (case_match; simplify_eq/=).

Ltac unfold_setters :=
  unfold set_patch, set_after, set_command, set_prettyDiff, set_rollback,
    set_errState, set_cache in *; simpl in *.

Section EngineFacts.
Context `{Deps}.

Lemma SolveChange_unfold (w : World) :
  SolveChange w =
  match inferAfter (cleared w) with
  | (Some e, w1) => (Some e, failed e w1)
  | (None, w1) =>
    match inferCommand w1 with
    | (Some e, w2) => (Some e, failed e w2)
    | (None, w2) =>
      match inferPrettyDiff w2 with
      | (Some e, w3) => (Some e, failed e w3)
      | (None, w3) =>
        match inferRollback w3 with
        | (Some e, w4) => (Some e, failed e w4)
        | (None, w4) => (None, (inferPatch w4).2)
        end
      end
    end
  end.
Proof.
  unfold SolveChange. unfold_monad. fold (cleared w).
  destruct (inferAfter (cleared w)) as [[e|] w1]; [reflexivity|].
  destruct (inferCommand w1) as [[e|] w2]; [reflexivity|].
  destruct (inferPrettyDiff w2) as [[e|] w3]; [reflexivity|].
  destruct (inferRollback w3) as [[e|] w4]; [reflexivity|].
  by destruct (inferPatch w4).
Qed.

(** A successful resolution ran all five steps. *)
Lemma SolveChange_ok (w w' : World) :
  SolveChange w = (None, w') →
  ∃ w1 w2 w3 w4,
    inferAfter (cleared w) = (None, w1) ∧ inferCommand w1 = (None, w2) ∧
    inferPrettyDiff w2 = (None, w3) ∧ inferRollback w3 = (None, w4) ∧
    w' = (inferPatch w4).2.
Proof.
  rewrite SolveChange_unfold.
  destruct (inferAfter (cleared w)) as [[e|] w1] eqn:H1; [done|].
  destruct (inferCommand w1) as [[e|] w2] eqn:H2; [done|].
  destruct (inferPrettyDiff w2) as [[e|] w3] eqn:H3; [done|].
  destruct (inferRollback w3) as [[e|] w4] eqn:H4; [done|].
  intros [= <-]. by exists w1, w2, w3, w4.
Qed.

(** What each step may change. *)
Lemma inferAfter_frame (w w' : World) r :
  inferAfter w = (r, w') →
  ∃ a k, self w' = set_cache k (set_after a (self w)) ∧
    (is_Some r → a = after (self w)).
Proof.
  destruct w as [c tr]. intros Hrun. run_step;
    destruct c; unfold_setters; do 2 eexists; (split; [reflexivity|]);
    first [done | by intros [? [=]]].
Qed.

Lemma inferCommand_frame (w w' : World) r :
  inferCommand w = (r, w') →
  trace w' = trace w ∧
  ∃ cmd, self w' = set_command cmd (self w) ∧
    (is_Some r → cmd = command (self w)).
Proof.
  destruct w as [c tr]. intros Hrun. run_step;
    destruct c; unfold_setters; (split; [done|]); eexists; (split; [reflexivity|]);
    first [done | by intros [? [=]]].
Qed.

Lemma inferPrettyDiff_frame (w w' : World) r :
  inferPrettyDiff w = (r, w') →
  ∃ s k, self w' = set_cache k (set_prettyDiff s (self w)) ∧
    (is_Some r → s = prettyDiff (self w)).
Proof.
  destruct w as [c tr]. intros Hrun. run_step;
    destruct c; unfold_setters; do 2 eexists; (split; [reflexivity|]);
    first [done | by intros [? [=]]].
Qed.

Lemma inferRollback_frame (w w' : World) r :
  inferRollback w = (r, w') →
  ∃ s k, self w' = set_cache k (set_rollback s (self w)) ∧
    (is_Some r → s = rollback (self w)).
Proof.
  destruct w as [c tr]. intros Hrun. run_step;
    destruct c; unfold_setters; do 2 eexists; (split; [reflexivity|]);
    first [done | by intros [? [=]]].
Qed.

Lemma inferPatch_frame (w : World) :
  trace (inferPatch w).2 = trace w ∧
  ∃ p, self (inferPatch w).2 = set_patch p (self w).
Proof.
  destruct w as [c tr]. run_step;
    destruct c; unfold_setters; (split; [done|]); by eexists.
Qed.

Lemma inferCommand_skip (w : World) :
  command (self w) ≠ MigratorUnknown → inferCommand w = (None, w).
Proof. destruct w as [c tr]. intros Hcmd. by run_step. Qed.

Lemma inferCommand_infer (w w' : World) :
  command (self w) = MigratorUnknown →
  inferCommand w = (None, w') →
  ∃ a, after (self w) = Some a ∧
    self w' = set_command (if 0 <? size a then MigratorSet else MigratorDelete) (self w).
Proof.
  destruct w as [c tr]. intros Hcmd Hrun. run_step;
    destruct (after c) as [a|] eqn:Ha; try done; exists a; simpl in *;
    match goal with E : (0 <? _) = _ |- _ => by rewrite E end.
Qed.

Lemma inferAfter_shortcut (w : World) :
  command (self w) = MigratorSet ∨ command (self w) = MigratorAdd →
  inferAfter w =
  (None, {| self := set_after (patch (self w)) (self w); trace := trace w |}).
Proof. destruct w as [c tr]. intros [Hcmd|Hcmd]; by run_step. Qed.

Lemma inferAfter_Delete (w : World) :
  command (self w) = MigratorDelete →
  inferAfter w =
  (None, {| self := set_after (Some ∅) (self w); trace := trace w |}).
Proof. destruct w as [c tr]. intros Hcmd. by run_step. Qed.

Lemma inferPrettyDiff_trace (w w' : World) r :
  inferPrettyDiff w = (r, w') →
  ∃ evs, trace w' = trace w ++ evs ∧ Forall (λ e, is_ApplyDiffPatch e = false) evs.
Proof.
  destruct w as [c tr]. intros Hrun. run_step;
    first [by exists []; rewrite app_nil_r
          |by eexists [_]; split; [done|repeat constructor]].
Qed.

Lemma inferRollback_trace (w w' : World) r :
  inferRollback w = (r, w') →
  ∃ evs, trace w' = trace w ++ evs ∧ Forall (λ e, is_ApplyDiffPatch e = false) evs.
Proof.
  destruct w as [c tr]. intros Hrun. run_step;
    first [by exists []; rewrite app_nil_r
          |by eexists [_]; split; [done|repeat constructor]].
Qed.

Lemma guard_fires (w : World) :
  command (self w) = MigratorUnknown ∨ command (self w) = MigratorUpdate →
  before (self w) = None ∨ (patch (self w) = None ∧ instruction (self w) = "") →
  inferAfter w = (Some missing_inputs, w).
Proof.
  destruct w as [c tr]. simpl. intros Hcmd Hmiss.
  assert (is_nil (before c) || is_nil (patch c) && bool_decide (instruction c = "")
          = true) as Hguard.
  { destruct Hmiss as [->|[-> ->]]; [done|]. simpl. apply orb_true_r. }
  unfold inferAfter. unfold_monad. simpl. rewrite Hguard.
  by destruct Hcmd as [->| ->].
Qed.

(** Past its guard, [inferAfter] fetches the two serializations, marshals
    and applies the patch. *)
Lemma inferAfter_general (w : World) :
  command (self w) = MigratorUnknown ∨ command (self w) = MigratorUpdate →
  before (self w) ≠ None →
  patch (self w) ≠ None ∨ instruction (self w) ≠ "" →
  let c := self w in
  let c1 := (fetchCache "sPatch" (patch c)
               (fetchCache "sBefore" (before c) w).2).2 in
  inferAfter w =
  match Marshal (cached "sBefore" (before c) c) with
  | Err e => (Some e, c1)
  | Ok bm =>
    match patch_payload c with
    | Err e => (Some e, c1)
    | Ok pm =>
      let w2 := {| self := self c1; trace := trace w ++ [EvApplyDiffPatch bm pm] |} in
      match ApplyDiffPatch bm pm with
      | Err e => (Some e, w2)
      | Ok out =>
        (None, {| self := set_after (DeSerializeData (Unmarshal out) (database c))
                            (self c1);
                  trace := trace w2 |})
      end
    end
  end.
Proof.
  destruct w as [c tr]. simpl. intros Hcmd Hbefore Hpatch.
  assert (is_nil (before c) || is_nil (patch c) && bool_decide (instruction c = "")
          = false) as Hguard.
  { destruct (before c); [simpl|done].
    destruct Hpatch as [Hp|Hi]; [by destruct (patch c)|].
    rewrite bool_decide_eq_false_2 by done. apply andb_false_r. }
  unfold inferAfter, patch_payload, cached, fetchCache. unfold_monad. simpl.
  rewrite Hguard.
  destruct Hcmd as [-> | ->];
    destruct (cache c !! "sBefore") as [sB|] eqn:HsB;
    destruct (cache c !! "sPatch") as [sP|] eqn:HsP; simpl;
    rewrite ?HsB; simpl; rewrite ?lookup_insert_ne by done; rewrite ?HsP; simpl;
    (destruct (Marshal _) as [bm|e1]; [|reflexivity]);
    (destruct ((0 <? String.length (instruction c)) && (len (patch c) =? 0)); simpl;
     [|destruct (Marshal _) as [pm|e2]; [|reflexivity]]);
    destruct (ApplyDiffPatch _ _); reflexivity.
Qed.




Lemma inferPatch_self (w : World) :
  self (inferPatch w).2 =
  if (len (patch (self w)) =? 0) &&
     (bool_decide (command (self w) = MigratorAdd)
      || bool_decide (command (self w) = MigratorSet)
      || bool_decide (command (self w) = MigratorUpdate))
  then set_patch (after (self w)) (self w)
  else self w.
Proof. destruct w as [c tr]. unfold inferPatch. unfold_monad. simpl. by case_match. Qed.

End EngineFacts.

(** Split a run of [SolveChange] into the runs of its steps: four goals for
    the step that failed, one for success. *)
Ltac split_steps Hrun :=
  rewrite SolveChange_unfold in Hrun;
  destruct (inferAfter (cleared _)) as [[e1|] w1] eqn:Hafter;
  [|destruct (inferCommand w1) as [[e2|] w2] eqn:Hcommand;
    [|destruct (inferPrettyDiff w2) as [[e3|] w3] eqn:Hpretty;
      [|destruct (inferRollback w3) as [[e4|] w4] eqn:Hrollback]]];
  injection Hrun as <- <-.

(** Replace the run of each step by what it leaves of the receiver. *)
Ltac frame_steps :=
  repeat match goal with
  | E : inferAfter _ = _ |- _ =>
    apply inferAfter_frame in E as (?a & ?k & ?Hself & ?Hkeep)
  | E : inferCommand _ = _ |- _ =>
    apply inferCommand_frame in E as (?Htrace & ?cmd & ?Hself & ?Hkeep)
  | E : inferPrettyDiff _ = _ |- _ =>
    apply inferPrettyDiff_frame in E as (?s & ?k & ?Hself & ?Hkeep)
  | E : inferRollback _ = _ |- _ =>
    apply inferRollback_frame in E as (?s & ?k & ?Hself & ?Hkeep)
  end.

(** Name the patch that [inferPatch] leaves. *)
Ltac open_inferPatch :=
  try match goal with
  | |- context [inferPatch ?w] =>
    let p := fresh "p" in
    let Hp := fresh "Hp" in
    destruct (inferPatch_frame w) as (_ & p & Hp); rewrite Hp in *; clear Hp
  end.

(** Express every intermediate receiver through the initial one. *)
Ltac chase :=
  unfold cleared, failed in *; simpl in *;
  repeat match goal with
  | E : self ?w = _ |- _ => is_var w; rewrite ?E in *; clear E
  end;
  simpl in *.

Section Resolution.
Context `{Deps}.

Lemma inferAfter_command (w w' : World) r :
  inferAfter w = (r, w') → command (self w') = command (self w).
Proof. intros Hrun. frame_steps. by chase. Qed.

Lemma step_failure_keeps_fields (step : M (option error)) (w w' : World) e :
  step ∈ pipeline → step w = (Some e, w') →
  self w' = set_cache (cache (self w')) (self w).
Proof.
  unfold pipeline. rewrite !elem_of_cons, elem_of_nil.
  intros [->|[->|[->|[->|[->|[]]]]]] Hrun.
  - apply inferAfter_frame in Hrun as (a & k & -> & Hkeep).
    rewrite Hkeep by done. by destruct (self w).
  - apply inferCommand_frame in Hrun as (_ & cmd & -> & Hkeep).
    rewrite Hkeep by done. by destruct (self w).
  - apply inferPrettyDiff_frame in Hrun as (s & k & -> & Hkeep).
    rewrite Hkeep by done. by destruct (self w).
  - apply inferRollback_frame in Hrun as (s & k & -> & Hkeep).
    rewrite Hkeep by done. by destruct (self w).
  - unfold_monad. by destruct (inferPatch w).
Qed.

Lemma SolveChange_resolve (w : World) : SolveChange w = resolve_spec w.
Proof.
  rewrite SolveChange_unfold. unfold resolve_spec, pipeline, run_steps.
  unfold_monad. fold (cleared w).
  destruct (inferAfter (cleared w)) as [[e|] w1]; [reflexivity|].
  destruct (inferCommand w1) as [[e|] w2]; [reflexivity|].
  destruct (inferPrettyDiff w2) as [[e|] w3]; [reflexivity|].
  destruct (inferRollback w3) as [[e|] w4]; [reflexivity|].
  by destruct (inferPatch w4).
Qed.

Lemma SolveChange_errState (w : World) :
  errState (self (SolveChange w).2) = (SolveChange w).1.
Proof.
  destruct (SolveChange w) as [r w'] eqn:Hrun. simpl.
  split_steps Hrun; try done.
  frame_steps. open_inferPatch. by chase.
Qed.

(** C7. [SolveChange] is the pipeline of section 4.2: it clears [errState]
    and runs infer-after, infer-command, infer-pretty-diff, infer-rollback
    and infer-patch in that order; the first step that fails ends the run
    with [errState] set to its error (so [errState] is always the returned
    error), and a failing step leaves every field of the Change but its
    cache as it found it, so that the values derived by the steps before it
    stay in place. *)
Theorem SolveChange_fails_closed (w : World) :
  SolveChange w = resolve_spec w ∧
  errState (self (SolveChange w).2) = (SolveChange w).1 ∧
  ∀ (step : M (option error)) (w0 w1 : World) (e : error),
    step ∈ pipeline → step w0 = (Some e, w1) →
    self w1 = set_cache (cache (self w1)) (self w0).
Proof.
  split; [apply SolveChange_resolve|].
  split; [apply SolveChange_errState|].
  intros step w0 w1 e. apply step_failure_keeps_fields.
Qed.


(** C4. When the command is Set or Add, [inferAfter] does nothing but
    assign [patch] to [after]: it succeeds, makes no external call and
    leaves every other field, the cache included, untouched.  The resolved
    [after] is the input [patch], and [ApplyDiffPatch] is not called at any
    point of the resolution. *)
Theorem inferAfter_Set_Add (w w' : World) r :
  command (self w) = MigratorSet ∨ command (self w) = MigratorAdd →
  SolveChange w = (r, w') →
  inferAfter w =
    (None, {| self := set_after (patch (self w)) (self w); trace := trace w |}) ∧
  after (self w') = patch (self w) ∧
  ∃ evs, trace w' = trace w ++ evs ∧
    Forall (λ e, is_ApplyDiffPatch e = false) evs.
Proof.
  intros Hcmd Hrun. split; [by apply inferAfter_shortcut|].
  assert (Hcmd' : command (self (cleared w)) ≠ MigratorUnknown)
    by (destruct Hcmd as [Hc|Hc]; simpl; by rewrite Hc).
  split_steps Hrun; rewrite inferAfter_shortcut in Hafter by done;
    simplify_eq;
    rewrite inferCommand_skip in Hcommand by done; simplify_eq.
  - pose proof (inferPrettyDiff_trace _ _ _ Hpretty) as (evs & Htr & Hevs).
    frame_steps. chase. split; [done|]. by exists evs.
  - pose proof (inferPrettyDiff_trace _ _ _ Hpretty) as (evs & Htr & Hevs).
    pose proof (inferRollback_trace _ _ _ Hrollback) as (evs' & Htr' & Hevs').
    frame_steps. chase. split; [done|]. exists (evs ++ evs').
    rewrite Htr', Htr, app_assoc. split; [done|]. by apply Forall_app.
  - pose proof (inferPrettyDiff_trace _ _ _ Hpretty) as (evs & Htr & Hevs).
    pose proof (inferRollback_trace _ _ _ Hrollback) as (evs' & Htr' & Hevs').
    destruct (inferPatch_frame w4) as (Htr4 & _).
    pose proof (inferPatch_self w4) as Hp.
    frame_steps. chase. rewrite Hp. split.
    + case_match; by chase.
    + exists (evs ++ evs'). rewrite Htr4, Htr', Htr, app_assoc.
      split; [done|]. by apply Forall_app.
Qed.

Lemma run_fallible_ok (w : World) :
  (run_steps fallible (cleared w)).1 = None → (SolveChange w).1 = None.
Proof.
  rewrite SolveChange_unfold. unfold fallible, run_steps. unfold_monad.
  destruct (inferAfter (cleared w)) as [[e|] w1]; [done|].
  destruct (inferCommand w1) as [[e|] w2]; [done|].
  destruct (inferPrettyDiff w2) as [[e|] w3]; [done|].
  by destruct (inferRollback w3) as [[e|] w4].
Qed.

(** C6. When the input patch has no field (nil or empty) and resolution
    succeeds: if the resolved command is Add, Set or Update, the resolved
    patch is the resolved [after]; if it is Delete, the patch is left as it
    was and [after] is the empty map.  The fill-in step returns no error:
    [SolveChange] succeeds as soon as its four fallible steps do. *)
Theorem inferPatch_fill_in (w w' : World) :
  len (patch (self w)) = 0 →
  SolveChange w = (None, w') →
  (command (self w') = MigratorAdd ∨ command (self w') = MigratorSet
   ∨ command (self w') = MigratorUpdate → patch (self w') = after (self w')) ∧
  (command (self w') = MigratorDelete →
   patch (self w') = patch (self w) ∧ after (self w') = Some ∅) ∧
  (∀ w0, (run_steps fallible (cleared w0)).1 = None → (SolveChange w0).1 = None).
Proof.
  intros Hlen Hrun. split; [|split; [|apply run_fallible_ok]].
  - intros Hcmd.
    apply SolveChange_ok in Hrun as (w1 & w2 & w3 & w4 & H1 & H2 & H3 & H4 & ->).
    rewrite inferPatch_self in *. frame_steps. chase. rewrite Hlen in *. simpl in *.
    case_match; [done|]. chase.
    destruct Hcmd as [Hc|[Hc|Hc]]; rewrite Hc in *; done.
  - intros Hcmd.
    apply SolveChange_ok in Hrun as (w1 & w2 & w3 & w4 & H1 & H2 & H3 & H4 & ->).
    rewrite inferPatch_self in *.
    destruct (decide (command (self w) = MigratorUnknown)) as [Hu|Hu].
    + apply inferCommand_infer in H2 as (a & Ha & Hw2);
        [|by rewrite (inferAfter_command _ _ _ H1)].
      frame_steps. chase. rewrite Hlen in *. simpl in *.
      destruct (0 <? size a) eqn:Hsz; simpl in *; [done|].
      apply Nat.ltb_ge in Hsz. assert (a = ∅) as -> by (apply map_size_empty_inv; lia).
      done.
    + rewrite inferCommand_skip in H2
        by (by rewrite (inferAfter_command _ _ _ H1)).
      simplify_eq.
      assert (command (self w) = MigratorDelete) as Hdel.
      { frame_steps. chase. rewrite Hlen in *. simpl in *.
        by case_match; chase. }
      rewrite inferAfter_Delete in H1 by done. simplify_eq.
      frame_steps. chase. rewrite Hdel. by rewrite andb_false_r.
Qed.

Lemma Present_error (c : Change) (e : error) :
  Sprintf_verbatim → errState c = Some e → verb_free e = true →
  (Present c).2 = "< !!! ERROR STATE !!! >" +:+ nl +:+ e +:+ nl.
Proof.
  intros Hfmt He Hplain. unfold Present. rewrite He. simpl.
  rewrite !Hfmt; [done| |done].
  clear He. induction e as [|a e IH]; [done|].
  simpl in *. apply andb_true_iff in Hplain as [-> ?]. simpl. by apply IH.
Qed.

(** C3, as amended.  With the command Unknown: when [before] is nil, or
    [patch] is nil and the instruction is empty, [SolveChange] returns the
    error of the guard and changes nothing but [errState], which it sets to
    that error ([after] is not computed and no external call is made), and
    [Present] then shows the error block.  When [before] is a map and
    either [patch] is a map, be it empty, or the instruction is not empty,
    the guard lets the Change through, and [inferAfter] can only fail with
    an error of [json.Marshal] or [ApplyDiffPatch]. *)
Theorem inferAfter_guard (w : World) :
  command (self w) = MigratorUnknown →
  (before (self w) = None ∨ (patch (self w) = None ∧ instruction (self w) = "") →
   SolveChange w = (Some missing_inputs, failed missing_inputs (cleared w)) ∧
   (Sprintf_verbatim →
    (Present (self (SolveChange w).2)).2 =
    "< !!! ERROR STATE !!! >" +:+ nl +:+ missing_inputs +:+ nl)) ∧
  (before (self w) ≠ None →
   patch (self w) ≠ None ∨ instruction (self w) ≠ "" →
   ∀ e w', inferAfter (cleared w) = (Some e, w') →
     (∃ m, Marshal m = Err e) ∨ (∃ doc p, ApplyDiffPatch doc p = Err e)).
Proof.
  intros Hcmd. split.
  - intros Hmiss.
    assert (SolveChange w = (Some missing_inputs, failed missing_inputs (cleared w)))
      as Hrun.
    { rewrite SolveChange_unfold.
      by rewrite (guard_fires (cleared w)) by (simpl; auto). }
    split; [done|]. intros Hfmt. rewrite Hrun. by apply Present_error.
  - intros Hbefore Hpatch e w'.
    rewrite (inferAfter_general (cleared w)) by (simpl; auto). cbv zeta.
    destruct (Marshal (cached "sBefore" _ _)) as [bm|e1] eqn:Hbm;
      [|intros ?; simplify_eq; eauto].
    destruct (patch_payload _) as [pm|e2] eqn:Hpm.
    + destruct (ApplyDiffPatch bm pm) as [out|e3] eqn:Happ; [done|].
      intros ?; simplify_eq; eauto.
    + intros ?; simplify_eq. left. unfold patch_payload in Hpm.
      destruct ((0 <? _) && _); [done|]. eauto.
Qed.

(** C10, as amended.  With the command Update, [inferAfter] runs as it does
    for Unknown, the command apart.  It returns the error of the guard,
    leaving the Change as it was, when [before] is nil or when [patch] is
    nil and the instruction is empty, and [SolveChange] then fails with
    that error as it does for Unknown.  When it succeeds, [after] is the
    deserialized result of [ApplyDiffPatch] on the marshalled cache entry
    sBefore and a payload that is the instruction text if there is one and
    the patch has no field, and the marshalled cache entry sPatch
    otherwise; that call is the only one it makes.  The cache entries are
    the serializations of [before] and [patch] only where the cache lacks
    the keys, as on a Change fresh from [NewChange]; an entry the cache
    holds is used as it is, whatever [before] and [patch] have become. *)
Theorem inferAfter_Update (w : World) :
  command (self w) = MigratorUpdate →
  inferAfter w =
    (let (r, w') := inferAfter (with_command MigratorUnknown w) in
     (r, with_command MigratorUpdate w')) ∧
  (before (self w) = None ∨ (patch (self w) = None ∧ instruction (self w) = "") →
   inferAfter w = (Some missing_inputs, w) ∧
   SolveChange w = (Some missing_inputs, failed missing_inputs (cleared w))) ∧
  (∀ w', inferAfter w = (None, w') →
   ∃ bm pm out,
     Marshal (cached "sBefore" (before (self w)) (self w)) = Ok bm ∧
     patch_payload (self w) = Ok pm ∧
     ApplyDiffPatch bm pm = Ok out ∧
     after (self w') = DeSerializeData (Unmarshal out) (database (self w)) ∧
     trace w' = trace w ++ [EvApplyDiffPatch bm pm]) ∧
  (cache (self w) !! "sBefore" = None →
   cached "sBefore" (before (self w)) (self w) =
   SerializeData (before (self w)) (database (self w))) ∧
  (cache (self w) !! "sPatch" = None →
   cached "sPatch" (patch (self w)) (self w) =
   SerializeData (patch (self w)) (database (self w))) ∧
  (∀ sB, cache (self w) !! "sBefore" = Some sB →
   cached "sBefore" (before (self w)) (self w) = sB) ∧
  (∀ sP, cache (self w) !! "sPatch" = Some sP →
   cached "sPatch" (patch (self w)) (self w) = sP).
Proof.
  intros Hcmd.
  split; [|split; [|split; [|unfold cached; repeat split; by intros; simplify_option_eq]]].
  - destruct (decide (before (self w) = None ∨
                      (patch (self w) = None ∧ instruction (self w) = "")))
      as [Hmiss|Hok].
    + rewrite (guard_fires w), (guard_fires (with_command _ w))
        by (simpl; auto).
      unfold with_command. simpl. destruct w as [c tr]. simpl in *.
      rewrite <- Hcmd. by destruct c.
    + assert (before (self w) ≠ None) as Hb by tauto.
      assert (patch (self w) ≠ None ∨ instruction (self w) ≠ "") as Hp.
      { destruct (patch (self w)) eqn:?; [by left|].
        right. intros Hi. apply Hok. by right. }
      rewrite (inferAfter_general w), (inferAfter_general (with_command _ w))
        by (simpl; auto).
      destruct w as [c tr]. simpl in *.
      unfold patch_payload, cached, fetchCache. unfold_monad. simpl.
      destruct (cache c !! "sBefore") as [sB|] eqn:HsB;
        destruct (cache c !! "sPatch") as [sP|] eqn:HsP; simpl;
        rewrite ?HsB; simpl; rewrite ?lookup_insert_ne by done; rewrite ?HsP;
        simpl;
        (destruct (Marshal _) as [bm|e1];
         [|unfold with_command; simpl; rewrite <- ?Hcmd; destruct c; reflexivity]);
        (destruct ((0 <? String.length (instruction c)) && (len (patch c) =? 0)); simpl;
         [|destruct (Marshal _) as [pm|e2];
           [|unfold with_command; simpl; rewrite <- ?Hcmd; destruct c; reflexivity]]);
        destruct (ApplyDiffPatch _ _);
        unfold with_command; simpl; rewrite <- ?Hcmd; destruct c; reflexivity.
  - intros Hmiss. split; [apply guard_fires; auto|].
    rewrite SolveChange_unfold.
    by rewrite (guard_fires (cleared w)) by (simpl; auto).
  - intros w'.
    destruct (decide (before (self w) = None ∨
                      (patch (self w) = None ∧ instruction (self w) = "")))
      as [Hmiss|Hok].
    { by rewrite guard_fires by auto. }
    assert (before (self w) ≠ None) as Hb by tauto.
    assert (patch (self w) ≠ None ∨ instruction (self w) ≠ "") as Hp.
    { destruct (patch (self w)) eqn:?; [by left|].
      right. intros Hi. apply Hok. by right. }
    rewrite (inferAfter_general w) by (simpl; auto). simpl.
    destruct (Marshal _) as [bm|e1] eqn:Hbm; [|done].
    destruct (patch_payload _) as [pm|e2] eqn:Hpm; [|done].
    destruct (ApplyDiffPatch _ _) as [out|e3] eqn:Happ; [|done].
    intros [= <-]. exists bm, pm, out. simpl.
    by repeat split.
Qed.


(** A Change fresh from [NewChange] has nothing in its cache. *)
Lemma NewChange_uncached (path : string) (b p : GoMap RichValue) (cmd : Command)
    (instr : string) (db : Firestore) (key : string) :
  cache (NewChange path b p cmd instr db) !! key = None.
Proof. apply lookup_empty. Qed.

(** The law of the pair holds at every two documents. *)
Lemma diff_apply_law_at (a b : string) : diff_apply_law → inverts_at a b.
Proof. intros Hlaw r. apply Hlaw. Qed.


End Resolution.

(** * Facts about presentation and execution *)

Lemma prefix_underscore_free (old s : string) :
  String.prefix old s = true → underscore_free s = true →
  underscore_free old = true.
Proof.
  revert s. induction old as [|a old IH]; intros [|b s]; simpl; try done.
  destruct (ascii_dec a b) as [->|]; [|done].
  intros Hpre [-> Hs]%andb_true_iff. simpl. by apply (IH s).
Qed.

Lemma replace_scan_absent (old new s : string) :
  underscore_free old = false → underscore_free s = true →
  replace_scan old new 0 None s = s.
Proof.
  intros Hold. induction s as [|a s IH]; [done|].
  intros Hs. cbn [replace_scan].
  destruct (String.prefix old (String a s)) eqn:Hpre.
  { apply prefix_underscore_free in Hpre; [congruence|done]. }
  simpl. f_equal. apply IH. simpl in Hs. by apply andb_true_iff in Hs as [_ ?].
Qed.

Lemma Replace_absent (old s : string) :
  underscore_free old = false → underscore_free s = true →
  Replace s old "" (-1) = s.
Proof.
  intros Hold Hs. unfold Replace. case_match; [done|].
  rewrite bool_decide_eq_true_2 by done. by apply replace_scan_absent.
Qed.

Lemma verb_free_app (s t : string) :
  verb_free (s +:+ t) = verb_free s && verb_free t.
Proof.
  induction s as [|a s IH]; [done|].
  rewrite append_cons. simpl. by rewrite IH, andb_assoc.
Qed.

Section PresentationFacts.
Context `{Deps}.

(** C8: what the code does.  [Present] removes the tokens
    [__timestamp__], [__delete__] and [__docref__] (with the quote next to
    them), not the wrappers [<time>], [<ref>] and [<delete>] of the
    serialization: a resolved Change whose diff has no underscore, whatever
    wrappers it shows, is displayed as it is. *)
Theorem Present_keeps_wrappers (c : Change) :
  Sprintf_verbatim →
  errState c = None → prettyDiff c ≠ "" →
  underscore_free (prettyDiff c) = true → verb_free (prettyDiff c) = true →
  (Present c).2 = prettyDiff c +:+ nl.
Proof.
  intros Hfmt Herr Hne Hus Hvf. unfold Present. rewrite Herr.
  destruct (prettyDiff c) as [|a s] eqn:Hpd; [done|]. simpl String.length.
  cbn [Nat.eqb snd]. unfold replace. cbn [foldl].
  rewrite !(Replace_absent _ (String a s))
    by first [assumption|vm_compute; reflexivity].
  rewrite Hfmt; [reflexivity|]. rewrite verb_free_app, Hvf. reflexivity.
Qed.

End PresentationFacts.

(** C9, as amended.  [pushChange] does not read [errState]: on every
    Change it dispatches exactly one operation to the database client,
    chosen by the command (Update: update, Set and Add: set, anything
    else: delete) and carrying the transformed patch, and returns the
    client's answer.  Keeping errored Changes away is left to its caller. *)
Theorem pushChange_dispatch (transformer : GoMap RichValue → GoMap RichValue)
    (w : World) (e : option error) :
  let c := self w in
  let data := transformer (patch c) in
  let op :=
    match command c with
    | MigratorUpdate => OpUpdateDoc (docPath c) data
    | MigratorSet | MigratorAdd => OpSetDoc (docPath c) data
    | _ => OpDeleteDoc (docPath c)
    end in
  pushChange transformer w =
    (respond (database c) op, {| self := c; trace := trace w ++ [EvDatabase op] |}) ∧
  trace (pushChange transformer {| self := set_errState e c; trace := trace w |}).2 =
    trace w ++ [EvDatabase op].
Proof.
  destruct w as [c tr]. simpl.
  unfold pushChange, UpdateDoc, SetDoc, DeleteDoc, dispatch. unfold_monad. simpl.
  by destruct (command c).
Qed.

(** * The serialization round trip *)

(** C2, as amended.  Given a time codec that reads back what it prints:
    [deserialize] after [serialize] is the identity on every rich value
    none of whose plain strings has itself a sentinel form; it is the
    identity on the three extension kinds; and on a canonical value with no
    string of a sentinel form [deserialize] is the inclusion into rich
    values. *)
Theorem deserialize_serialize `{TimeCodec} :
  codec_law →
  (∀ v, plain v = true → deserialize (serialize v) = v) ∧
  (∀ v, is_extension v = true → deserialize (serialize v) = v) ∧
  (∀ c, cplain c = true → deserialize c = embed c).
Proof.
  intros Hlaw. split; [|split].
  - intros v. by apply roundtrip_plain.
  - intros v. by apply roundtrip_extension.
  - apply deserialize_embed.
Qed.

(** * The statements at work in the concrete setting *)

Module Examples.
Import Demo.

Lemma decimalCodec_law : @codec_law decimalCodec.
Proof.
  intros t. unfold parseTime, formatTime, decimalCodec.
  rewrite NilEmpty.isi. simpl. f_equal. apply DecimalZ.of_to.
Qed.

Lemma wholeDoc_law : @diff_apply_law deps.
Proof.
  intros a b r.
  change (wholeDocDiff a b = Ok r →
          ∃ b', wholeDocApply a r = Ok b' ∧ parse_doc b' = parse_doc b).
  unfold wholeDocDiff, wholeDocApply.
  destruct (parse_doc a) eqn:Ha; [|done].
  destruct (parse_doc b) eqn:Hb; [|done].
  intros [= <-]. exists b. by rewrite Hb.
Qed.

(** In this setting the fields of a document none of whose strings has a
    sentinel form come back from serialization as they were. *)
Lemma fields_roundtrip (m : gmap string RichValue) :
  @plain decimalCodec (RMap m) = true →
  deserializeFields (serializeFields (Some m)) = Some m.
Proof.
  intros Hm. unfold deserializeFields, serializeFields. simpl. f_equal.
  pose proof (roundtrip_plain (H:=decimalCodec) (RMap m) decimalCodec_law Hm)
    as Hrt.
  cbn [serialize deserialize] in Hrt. by injection Hrt.
Qed.

Lemma Sprintf_verbatim_demo : @Sprintf_verbatim deps.
Proof. by intros s _. Qed.

#[local] Existing Instance deps.



#[local] Existing Instance decimalCodec.

(** A value with every kind of constituent survives the round trip. *)
Lemma deserialize_serialize_witness :
  codec_law ∧ plain sampleValue = true ∧
  deserialize (serialize sampleValue) = sampleValue.
Proof.
  split; [exact decimalCodec_law|]. split; [vm_compute; reflexivity|].
  apply (proj1 (deserialize_serialize decimalCodec_law)).
  vm_compute; reflexivity.
Defined.

(** C2 fails on a plain string that has the form of a sentinel: the text of
    the delete marker comes back as the delete marker. *)
Lemma deserialize_serialize_collision :
  deserialize (serialize (RStr "<delete>!delete<delete>")) = RDelete ∧
  deserialize (serialize (RStr "<delete>!delete<delete>")) ≠
    RStr "<delete>!delete<delete>".
Proof. split; [vm_compute; reflexivity|]. intros Heq. vm_compute in Heq. discriminate. Qed.

(** Scenario D: no before; and an instruction that [ApplyDiffPatch]
    refuses, which fails past the guard. *)
Lemma inferAfter_guard_witness :
  (command scenarioD = MigratorUnknown ∧
   (before scenarioD = None ∨ (patch scenarioD = None ∧ instruction scenarioD = "")) ∧
   SolveChange (fresh scenarioD) =
     (Some missing_inputs, failed missing_inputs (cleared (fresh scenarioD))) ∧
   (Present (self (SolveChange (fresh scenarioD)).2)).2 =
     "< !!! ERROR STATE !!! >" +:+ nl +:+ missing_inputs +:+ nl) ∧
  (command badInstruction = MigratorUnknown ∧
   before badInstruction ≠ None ∧
   (patch badInstruction ≠ None ∨ instruction badInstruction ≠ "") ∧
   inferAfter (cleared (fresh badInstruction)) =
     (Some (errors_New "apply: malformed document or patch"),
      (inferAfter (cleared (fresh badInstruction))).2) ∧
   ((∃ m, Marshal m = Err (errors_New "apply: malformed document or patch")) ∨
    (∃ doc p, ApplyDiffPatch doc p = Err (errors_New "apply: malformed document or patch")))).
Proof.
  split.
  - destruct (inferAfter_guard (H:=deps) (fresh scenarioD) eq_refl) as [Hfail _].
    destruct (Hfail (or_introl eq_refl)) as [Hrun Hshow].
    split; [reflexivity|]. split; [left; reflexivity|]. split; [exact Hrun|].
    exact (Hshow Sprintf_verbatim_demo).
  - destruct (inferAfter_guard (H:=deps) (fresh badInstruction) eq_refl) as [_ Hpast].
    split; [reflexivity|]. split; [discriminate|].
    split; [right; discriminate|]. split; [vm_compute; reflexivity|].
    assert (inferAfter (cleared (fresh badInstruction)) =
            (Some (errors_New "apply: malformed document or patch"),
             (inferAfter (cleared (fresh badInstruction))).2)) as Hrun
      by (vm_compute; reflexivity).
    assert (before (self (fresh badInstruction)) ≠ None) as Hb by discriminate.
    assert (patch (self (fresh badInstruction)) ≠ None ∨
            instruction (self (fresh badInstruction)) ≠ "") as Hp
      by (right; discriminate).
    exact (Hpast Hb Hp _ _ Hrun).
Defined.

(** C3 fails on a patch that is the empty map: the patch has no field and
    there is no instruction, yet resolution succeeds, having called
    [ApplyDiffPatch]. *)
Lemma empty_patch_passes_guard :
  command emptyPatch = MigratorUnknown ∧
  before emptyPatch = Some ∅ ∧ len (patch emptyPatch) = 0 ∧
  instruction emptyPatch = "" ∧
  (SolveChange (fresh emptyPatch)).1 = None ∧
  errState (self (resolved emptyPatch)) = None ∧
  trace (resolved emptyPatch) =
    [EvApplyDiffPatch "{}" "{}"; EvPrettyDiff (Some ∅) (Some ∅);
     EvGetDiffPatch "{}" "{}"].
Proof. repeat split; vm_compute; reflexivity. Qed.

(** Scenario B: an addition takes its patch for [after]. *)
Lemma inferAfter_Set_Add_witness :
  (command scenarioB = MigratorSet ∨ command scenarioB = MigratorAdd) ∧
  SolveChange (fresh scenarioB) = (None, resolved scenarioB) ∧
  inferAfter (fresh scenarioB) =
    (None, {| self := set_after (patch scenarioB) scenarioB; trace := [] |}) ∧
  after (self (resolved scenarioB)) = patch scenarioB ∧
  ∃ evs, trace (resolved scenarioB) = [] ++ evs ∧
    Forall (λ e, is_ApplyDiffPatch e = false) evs.
Proof.
  split; [right; reflexivity|]. split; [vm_compute; reflexivity|].
  apply (inferAfter_Set_Add (H:=deps) (fresh scenarioB) (resolved scenarioB) None).
  - right; reflexivity.
  - vm_compute; reflexivity.
Defined.


(** An update by instruction gets its patch filled in; scenario C, a
    deletion, does not. *)
Lemma inferPatch_fill_in_witness :
  (len (patch updateByInstruction) = 0 ∧
   SolveChange (fresh updateByInstruction) = (None, resolved updateByInstruction) ∧
   command (self (resolved updateByInstruction)) = MigratorUpdate ∧
   patch (self (resolved updateByInstruction)) =
     after (self (resolved updateByInstruction))) ∧
  (len (patch scenarioC) = 0 ∧
   SolveChange (fresh scenarioC) = (None, resolved scenarioC) ∧
   command (self (resolved scenarioC)) = MigratorDelete ∧
   patch (self (resolved scenarioC)) = patch scenarioC ∧
   after (self (resolved scenarioC)) = Some ∅).
Proof.
  split.
  - split; [reflexivity|]. split; [vm_compute; reflexivity|].
    split; [vm_compute; reflexivity|].
    apply (proj1 (inferPatch_fill_in (H:=deps) (fresh updateByInstruction)
                    (resolved updateByInstruction) eq_refl
                    ltac:(vm_compute; reflexivity))).
    right; right. vm_compute; reflexivity.
  - split; [reflexivity|]. split; [vm_compute; reflexivity|].
    split; [vm_compute; reflexivity|].
    apply (proj1 (proj2 (inferPatch_fill_in (H:=deps) (fresh scenarioC)
                    (resolved scenarioC) eq_refl
                    ltac:(vm_compute; reflexivity)))).
    vm_compute; reflexivity.
Defined.

(** Scenario D fails in the first step, which leaves the Change as it was. *)
Lemma SolveChange_fails_closed_witness :
  SolveChange (fresh scenarioD) = resolve_spec (fresh scenarioD) ∧
  errState (self (SolveChange (fresh scenarioD)).2) = (SolveChange (fresh scenarioD)).1 ∧
  inferAfter ∈ pipeline ∧
  inferAfter (fresh scenarioD) = (Some missing_inputs, fresh scenarioD) ∧
  self (fresh scenarioD) = set_cache (cache (self (fresh scenarioD))) (self (fresh scenarioD)).
Proof.
  destruct (SolveChange_fails_closed (H:=deps) (fresh scenarioD)) as (Hres & Herr & Hstep).
  split; [exact Hres|]. split; [exact Herr|].
  assert (inferAfter ∈ pipeline) as Hin by (unfold pipeline; constructor).
  split; [exact Hin|]. split; [reflexivity|].
  apply (Hstep inferAfter (fresh scenarioD) (fresh scenarioD) missing_inputs Hin).
  reflexivity.
Defined.

(** Scenario E, resolved: the diff shows the delete marker and the
    reference in their tagged forms, and [Present] displays it unchanged. *)
Lemma Present_keeps_wrappers_witness :
  Sprintf_verbatim ∧
  SolveChange (fresh scenarioE) = (None, resolved scenarioE) ∧
  errState (self (resolved scenarioE)) = None ∧
  prettyDiff (self (resolved scenarioE)) ≠ "" ∧
  underscore_free (prettyDiff (self (resolved scenarioE))) = true ∧
  verb_free (prettyDiff (self (resolved scenarioE))) = true ∧
  (Present (self (resolved scenarioE))).2 =
    prettyDiff (self (resolved scenarioE)) +:+ nl ∧
  prettyDiff (self (resolved scenarioE)) ≠
    strip_wrappers (prettyDiff (self (resolved scenarioE))).
Proof.
  split; [exact Sprintf_verbatim_demo|]. split; [vm_compute; reflexivity|].
  split; [vm_compute; reflexivity|].
  split; [intros Heq; vm_compute in Heq; discriminate|].
  split; [vm_compute; reflexivity|]. split; [vm_compute; reflexivity|]. split.
  - apply (Present_keeps_wrappers (H:=deps) (self (resolved scenarioE))
             Sprintf_verbatim_demo).
    + vm_compute; reflexivity.
    + intros Heq; vm_compute in Heq; discriminate.
    + vm_compute; reflexivity.
    + vm_compute; reflexivity.
  - intros Heq. vm_compute in Heq. discriminate.
Defined.

(** The README's serialized timestamp is displayed with its wrappers. *)
Lemma Present_README_timestamp :
  (Present resolvedWithTimestamp).2 = taggedDiff +:+ nl ∧
  taggedDiff ≠ strip_wrappers taggedDiff.
Proof.
  split; [vm_compute; reflexivity|]. intros Heq. vm_compute in Heq. discriminate.
Qed.

(** What [Present] does remove: a value tagged [__delete__] is displayed
    bare. *)
Lemma Present_strips_legacy_tokens :
  (Present resolvedLegacy).2 = "+ " +:+ dq +:+ "prev" +:+ dq +:+ ": !delete" +:+ nl.
Proof. vm_compute; reflexivity. Qed.

(** C9 fails on scenario D: resolution has failed and [errState] is set,
    and [pushChange] has the document deleted. *)
Lemma errored_change_is_pushed :
  errState (self (resolved scenarioD)) = Some missing_inputs ∧
  pushChange id (resolved scenarioD) =
    (None, {| self := self (resolved scenarioD);
              trace := [EvDatabase (OpDeleteDoc "fig/fog")] |}).
Proof. split; vm_compute; reflexivity. Qed.

(** An update by instruction, whose cache is empty; and an update without
    before. *)
Lemma inferAfter_Update_witness :
  (command updateByInstruction = MigratorUpdate ∧
   inferAfter (fresh updateByInstruction) =
     (None, (inferAfter (fresh updateByInstruction)).2) ∧
   ∃ bm pm out,
     Marshal (cached "sBefore" (before updateByInstruction) updateByInstruction)
       = Ok bm ∧
     patch_payload updateByInstruction = Ok pm ∧
     ApplyDiffPatch bm pm = Ok out ∧
     after (self (inferAfter (fresh updateByInstruction)).2) =
       DeSerializeData (Unmarshal out) client ∧
     trace (inferAfter (fresh updateByInstruction)).2 =
       [] ++ [EvApplyDiffPatch bm pm]) ∧
  (command updateWithoutBefore = MigratorUpdate ∧
   (before updateWithoutBefore = None ∨
    (patch updateWithoutBefore = None ∧ instruction updateWithoutBefore = "")) ∧
   inferAfter (fresh updateWithoutBefore) =
     (Some missing_inputs, fresh updateWithoutBefore) ∧
   SolveChange (fresh updateWithoutBefore) =
     (Some missing_inputs, failed missing_inputs (cleared (fresh updateWithoutBefore)))) ∧
  inferAfter (fresh updateByInstruction) =
    (let (r, w') := inferAfter (with_command MigratorUnknown (fresh updateByInstruction)) in
     (r, with_command MigratorUpdate w')) ∧
  (cache updateByInstruction !! "sBefore" = None ∧
   cached "sBefore" (before updateByInstruction) updateByInstruction =
     SerializeData (before updateByInstruction) client).
Proof.
  split; [|split; [|split]].
  - split; [reflexivity|]. split; [vm_compute; reflexivity|].
    apply (proj1 (proj2 (proj2
             (inferAfter_Update (H:=deps) (fresh updateByInstruction) eq_refl)))).
    vm_compute; reflexivity.
  - split; [reflexivity|]. split; [left; reflexivity|].
    apply (proj1 (proj2 (inferAfter_Update (H:=deps) (fresh updateWithoutBefore) eq_refl))).
    left; reflexivity.
  - apply (proj1 (inferAfter_Update (H:=deps) (fresh updateByInstruction) eq_refl)).
  - split; [reflexivity|].
    apply (proj1 (proj2 (proj2 (proj2
             (inferAfter_Update (H:=deps) (fresh updateByInstruction) eq_refl))))).
    reflexivity.
Defined.

(** The update by instruction, resolved twice.  The first resolution fills
    in the patch; the second, an Update still, no longer takes the
    instruction and applies the cache entry sPatch, the serialization of
    the nil patch of the first resolution, not that of the patch the
    Change now has: [after] becomes the empty map, where applying the
    serialized patch to the serialized [before] gives the field a. *)
Lemma second_Update_applies_stale_patch :
  SolveChange (fresh updateByInstruction) = (None, resolved updateByInstruction) ∧
  command (self (resolved updateByInstruction)) = MigratorUpdate ∧
  before (self (resolved updateByInstruction)) = Some {[ "a" := RNum 1 ]} ∧
  patch (self (resolved updateByInstruction)) = Some {[ "a" := RNum 2 ]} ∧
  cache (self (resolved updateByInstruction)) !! "sPatch" = Some (Some ∅) ∧
  (∃ bm pm out,
     Marshal (SerializeData (before (self (resolved updateByInstruction))) client)
       = Ok bm ∧
     Marshal (SerializeData (patch (self (resolved updateByInstruction))) client)
       = Ok pm ∧
     ApplyDiffPatch bm pm = Ok out ∧
     DeSerializeData (Unmarshal out) client = Some {[ "a" := RNum 2 ]}) ∧
  (∃ w', inferAfter (resolved updateByInstruction) = (None, w') ∧
     after (self w') = Some ∅) ∧
  ∃ w'', SolveChange (resolved updateByInstruction) = (None, w'') ∧
    after (self w'') = Some ∅ ∧ patch (self w'') = Some {[ "a" := RNum 2 ]}.
Proof.
  split; [vm_compute; reflexivity|]. split; [vm_compute; reflexivity|].
  split; [vm_compute; reflexivity|]. split; [vm_compute; reflexivity|].
  split; [vm_compute; reflexivity|]. split; [|split].
  - eexists _, _, _. repeat split; vm_compute; reflexivity.
  - eexists. split; [vm_compute; reflexivity|]. vm_compute; reflexivity.
  - eexists. split; [vm_compute; reflexivity|].
    split; vm_compute; reflexivity.
Qed.

End Examples.


(** * Further properties of the engine *)

Section Memoization.
Context `{Deps}.

(** X1. [fetchCache] memoizes by key alone: the value it returns is stored
    under the key, no other entry, no other field and no external call is
    involved, and a second [fetchCache] on the same key returns the stored
    value and changes nothing, whatever data it is given. *)
Theorem fetchCache_memoizes (key : string) (d1 d2 : GoMap RichValue) (w : World) :
  cache (self (fetchCache key d1 w).2) !! key = Some (fetchCache key d1 w).1 ∧
  fetchCache key d2 (fetchCache key d1 w).2 = fetchCache key d1 w ∧
  (∀ k, k ≠ key →
     cache (self (fetchCache key d1 w).2) !! k = cache (self w) !! k) ∧
  self (fetchCache key d1 w).2 =
    set_cache (cache (self (fetchCache key d1 w).2)) (self w) ∧
  trace (fetchCache key d1 w).2 = trace w.
Proof.
  destruct w as [c tr]. unfold fetchCache. unfold_monad. simpl.
  destruct (cache c !! key) as [v|] eqn:Hk; simpl.
  - rewrite Hk. repeat split; try done. by destruct c.
  - rewrite lookup_insert_eq. repeat split; try done.
    intros k Hne. by rewrite lookup_insert_ne.
Qed.

Lemma cache_extends_refl keys (k : gmap string (GoMap Canonical)) :
  cache_extends keys k k.
Proof. by split. Qed.

Lemma cache_extends_trans keys (k1 k2 k3 : gmap string (GoMap Canonical)) :
  cache_extends keys k1 k2 → cache_extends keys k2 k3 → cache_extends keys k1 k3.
Proof.
  intros [Hk1 Hn1] [Hk2 Hn2]. split.
  - intros key v Hv. by apply Hk2, Hk1.
  - intros key Hkey. by rewrite Hn2, Hn1.
Qed.

Lemma cache_extends_insert keys (k k' : gmap string (GoMap Canonical)) key v :
  cache_extends keys k k' → k' !! key = None → key ∈ keys →
  cache_extends keys k (<[key:=v]> k').
Proof.
  intros [Hk Hn] Hnone Hin. split.
  - intros key' v' Hv'. rewrite lookup_insert_ne; [by apply Hk|].
    intros <-. apply Hk in Hv'. congruence.
  - intros key' Hkey'. rewrite lookup_insert_ne; [by apply Hn|].
    by intros <-.
Qed.

Lemma cache_extends_weaken keys keys' (k k' : gmap string (GoMap Canonical)) :
  keys ⊆ keys' → cache_extends keys k k' → cache_extends keys' k k'.
Proof.
  intros Hsub [Hk Hn]. split; [done|].
  intros key Hkey. apply Hn. intros Hin. by apply Hkey, Hsub.
Qed.

(** Close a goal on the cache a step leaves: a chain of insertions at keys
    that were missing. *)
Ltac grow_cache :=
  simpl;
  repeat (apply cache_extends_insert; [|done|set_solver]);
  apply cache_extends_refl.

Lemma inferAfter_extends (w w' : World) r :
  inferAfter w = (r, w') →
  cache_extends ["sBefore"; "sPatch"] (cache (self w)) (cache (self w')).
Proof. destruct w as [c tr]. intros Hrun. run_step; grow_cache. Qed.

Lemma inferPrettyDiff_extends (w w' : World) r :
  inferPrettyDiff w = (r, w') →
  cache_extends ["serialBefore"; "serialAfter"] (cache (self w)) (cache (self w')).
Proof. destruct w as [c tr]. intros Hrun. run_step; grow_cache. Qed.

Lemma inferRollback_extends (w w' : World) r :
  inferRollback w = (r, w') →
  cache_extends ["serialBefore"; "serialAfter"] (cache (self w)) (cache (self w')).
Proof. destruct w as [c tr]. intros Hrun. run_step; grow_cache. Qed.

Lemma inferCommand_cache (w w' : World) r :
  inferCommand w = (r, w') → cache (self w') = cache (self w).
Proof. intros Hrun. frame_steps. by chase. Qed.

Lemma inferPatch_cache (w : World) : cache (self (inferPatch w).2) = cache (self w).
Proof. destruct (inferPatch_frame w) as (_ & p & ->). done. Qed.

(** X2. A resolution only adds to the cache: every entry present before
    [SolveChange] is still there, with the same value, afterwards, and the
    entries it adds are under the keys sBefore, sPatch, serialBefore and
    serialAfter.  This holds whether the resolution succeeds or fails. *)
Theorem SolveChange_cache_grows (w w' : World) r :
  SolveChange w = (r, w') →
  (∀ key v, cache (self w) !! key = Some v → cache (self w') !! key = Some v) ∧
  (∀ key, key ∉ resolution_keys → cache (self w') !! key = cache (self w) !! key).
Proof.
  intros Hrun. change (cache_extends resolution_keys (cache (self w)) (cache (self w'))).
  assert (∀ k k', cache_extends ["sBefore"; "sPatch"] k k' →
            cache_extends resolution_keys k k') as Hleft.
  { intros k k'. apply cache_extends_weaken. intros x.
    unfold resolution_keys. rewrite !elem_of_cons. tauto. }
  assert (∀ k k', cache_extends ["serialBefore"; "serialAfter"] k k' →
            cache_extends resolution_keys k k') as Hright.
  { intros k k'. apply cache_extends_weaken. intros x.
    unfold resolution_keys. rewrite !elem_of_cons. tauto. }
  split_steps Hrun; simpl.
  - by apply inferAfter_extends, Hleft in Hafter.
  - apply inferAfter_extends, Hleft in Hafter.
    by rewrite (inferCommand_cache _ _ _ Hcommand).
  - apply inferAfter_extends, Hleft in Hafter.
    apply inferPrettyDiff_extends, Hright in Hpretty.
    rewrite (inferCommand_cache _ _ _ Hcommand) in Hpretty.
    by eapply cache_extends_trans.
  - apply inferAfter_extends, Hleft in Hafter.
    apply inferPrettyDiff_extends, Hright in Hpretty.
    apply inferRollback_extends, Hright in Hrollback.
    rewrite (inferCommand_cache _ _ _ Hcommand) in Hpretty.
    eapply cache_extends_trans; [|done]. by eapply cache_extends_trans.
  - apply inferAfter_extends, Hleft in Hafter.
    apply inferPrettyDiff_extends, Hright in Hpretty.
    apply inferRollback_extends, Hright in Hrollback.
    rewrite (inferCommand_cache _ _ _ Hcommand) in Hpretty.
    rewrite inferPatch_cache.
    eapply cache_extends_trans; [|done]. by eapply cache_extends_trans.
Qed.

End Memoization.

Section Client.
Context `{Deps}.

(** Run a step on a world and on the same world with another client that
    the serialization treats alike, side by side. *)
Ltac commute_client :=
  match goal with Hlike : serialized_alike _ _ |- _ =>
    let Hser := fresh "Hser" in
    let Hdes := fresh "Hdes" in
    destruct Hlike as [Hser Hdes];
    unfold inferAfter, inferPrettyDiff, inferRollback,
      beforeAfterCache, fetchCache, call_ApplyDiffPatch, call_GetDiffPatch,
      call_PrettyDiff, with_database;
    unfold_monad; simpl; rewrite ?Hser, ?Hdes;
    repeat (case_match; simplify_eq/=; rewrite ?Hser, ?Hdes in * );
    repeat match goal with
    | E1 : ?x = _, E2 : ?x = _ |- _ => rewrite E1 in E2; simplify_eq/=
    end;
    reflexivity
  end.

Lemma inferAfter_client (db' : Firestore) (w : World) :
  serialized_alike (database (self w)) db' →
  inferAfter (with_database db' w) =
  (let (r, w') := inferAfter w in (r, with_database db' w')).
Proof. destruct w as [c tr]. simpl. intros Hlike. commute_client. Qed.

Lemma inferCommand_client (db' : Firestore) (w : World) :
  inferCommand (with_database db' w) =
  (let (r, w') := inferCommand w in (r, with_database db' w')).
Proof.
  destruct w as [c tr].
  unfold inferCommand, with_database. unfold_monad. simpl.
  repeat (case_match; simplify_eq/=); reflexivity.
Qed.

Lemma inferPrettyDiff_client (db' : Firestore) (w : World) :
  serialized_alike (database (self w)) db' →
  inferPrettyDiff (with_database db' w) =
  (let (r, w') := inferPrettyDiff w in (r, with_database db' w')).
Proof. destruct w as [c tr]. simpl. intros Hlike. commute_client. Qed.

Lemma inferRollback_client (db' : Firestore) (w : World) :
  serialized_alike (database (self w)) db' →
  inferRollback (with_database db' w) =
  (let (r, w') := inferRollback w in (r, with_database db' w')).
Proof. destruct w as [c tr]. simpl. intros Hlike. commute_client. Qed.

Lemma inferPatch_client (db' : Firestore) (w : World) :
  (inferPatch (with_database db' w)).2 = with_database db' (inferPatch w).2.
Proof.
  destruct w as [c tr].
  unfold inferPatch, with_database. unfold_monad. simpl.
  repeat (case_match; simplify_eq/=); reflexivity.
Qed.

(** The client reaches a resolution only through what [SerializeData] and
    [DeSerializeData] make of it. *)
Lemma SolveChange_client (db' : Firestore) (w : World) :
  serialized_alike (database (self w)) db' →
  SolveChange (with_database db' w) =
  (let (r, w') := SolveChange w in (r, with_database db' w')).
Proof.
  intros Hlike. rewrite !SolveChange_unfold.
  change (cleared (with_database db' w)) with (with_database db' (cleared w)).
  rewrite inferAfter_client by done.
  destruct (inferAfter (cleared w)) as [[e|] w1] eqn:H1; [reflexivity|].
  assert (database (self w1) = database (self w)) as Hd1
    by (apply inferAfter_frame in H1 as (a & k & -> & _); done).
  rewrite inferCommand_client.
  destruct (inferCommand w1) as [[e|] w2] eqn:H2; [reflexivity|].
  assert (database (self w2) = database (self w)) as Hd2
    by (apply inferCommand_frame in H2 as (_ & cmd & -> & _); done).
  rewrite inferPrettyDiff_client by (by rewrite Hd2).
  destruct (inferPrettyDiff w2) as [[e|] w3] eqn:H3; [reflexivity|].
  assert (database (self w3) = database (self w)) as Hd3
    by (apply inferPrettyDiff_frame in H3 as (s & k & -> & _); done).
  rewrite inferRollback_client by (by rewrite Hd3).
  destruct (inferRollback w3) as [[e|] w4]; [reflexivity|].
  by rewrite inferPatch_client.
Qed.

End Client.

Section Outcomes.
Context `{Deps}.

Lemma inferPrettyDiff_needs (w w' : World) :
  inferPrettyDiff w = (None, w') →
  before (self w) ≠ None ∧ after (self w) ≠ None.
Proof.
  destruct w as [c tr]. simpl. intros Hrun.
  unfold inferPrettyDiff in Hrun. unfold_monad. simpl in *.
  destruct (before c); [|done]. by destruct (after c).
Qed.

Lemma inferAfter_no_database (w w' : World) r :
  inferAfter w = (r, w') →
  ∃ evs, trace w' = trace w ++ evs ∧ Forall (λ e, is_database e = false) evs.
Proof.
  destruct w as [c tr]. intros Hrun. run_step;
    first [by exists []; rewrite app_nil_r
          |by eexists [_]; split; [done|repeat constructor]].
Qed.

Lemma inferPrettyDiff_no_database (w w' : World) r :
  inferPrettyDiff w = (r, w') →
  ∃ evs, trace w' = trace w ++ evs ∧ Forall (λ e, is_database e = false) evs.
Proof.
  destruct w as [c tr]. intros Hrun. run_step;
    first [by exists []; rewrite app_nil_r
          |by eexists [_]; split; [done|repeat constructor]].
Qed.

Lemma inferRollback_no_database (w w' : World) r :
  inferRollback w = (r, w') →
  ∃ evs, trace w' = trace w ++ evs ∧ Forall (λ e, is_database e = false) evs.
Proof.
  destruct w as [c tr]. intros Hrun. run_step;
    first [by exists []; rewrite app_nil_r
          |by eexists [_]; split; [done|repeat constructor]].
Qed.

(** The calls of the whole resolution. *)
Lemma SolveChange_no_database (w w' : World) r :
  SolveChange w = (r, w') →
  ∃ evs, trace w' = trace w ++ evs ∧ Forall (λ e, is_database e = false) evs.
Proof.
  intros Hrun. split_steps Hrun; simpl.
  - by apply inferAfter_no_database in Hafter.
  - apply inferAfter_no_database in Hafter as (ev1 & Ht1 & ?).
    apply inferCommand_frame in Hcommand as (Ht2 & _).
    rewrite Ht2, Ht1. eauto.
  - apply inferAfter_no_database in Hafter as (ev1 & Ht1 & ?).
    apply inferCommand_frame in Hcommand as (Ht2 & _).
    apply inferPrettyDiff_no_database in Hpretty as (ev3 & Ht3 & ?).
    rewrite Ht3, Ht2, Ht1. simpl. exists (ev1 ++ ev3).
    rewrite app_assoc. split; [done|]. by apply Forall_app.
  - apply inferAfter_no_database in Hafter as (ev1 & Ht1 & ?).
    apply inferCommand_frame in Hcommand as (Ht2 & _).
    apply inferPrettyDiff_no_database in Hpretty as (ev3 & Ht3 & ?).
    apply inferRollback_no_database in Hrollback as (ev4 & Ht4 & ?).
    rewrite Ht4, Ht3, Ht2, Ht1. simpl. exists (ev1 ++ ev3 ++ ev4).
    rewrite !app_assoc. split; [done|]. by rewrite !Forall_app.
  - apply inferAfter_no_database in Hafter as (ev1 & Ht1 & ?).
    apply inferCommand_frame in Hcommand as (Ht2 & _).
    apply inferPrettyDiff_no_database in Hpretty as (ev3 & Ht3 & ?).
    apply inferRollback_no_database in Hrollback as (ev4 & Ht4 & ?).
    destruct (inferPatch_frame w4) as (Ht5 & _).
    rewrite Ht5, Ht4, Ht3, Ht2, Ht1. simpl. exists (ev1 ++ ev3 ++ ev4).
    rewrite !app_assoc. split; [done|]. by rewrite !Forall_app.
Qed.

(** The fields no step assigns. *)
Lemma SolveChange_inputs (w w' : World) r :
  SolveChange w = (r, w') →
  docPath (self w') = docPath (self w) ∧
  before (self w') = before (self w) ∧
  instruction (self w') = instruction (self w) ∧
  database (self w') = database (self w).
Proof.
  intros Hrun.
  split_steps Hrun; frame_steps; open_inferPatch; chase; by repeat split.
Qed.

(** A resolution that succeeds has a command. *)
Lemma resolved_command (w w' : World) :
  SolveChange w = (None, w') → command (self w') ≠ MigratorUnknown.
Proof.
  intros Hrun.
  apply SolveChange_ok in Hrun as (w1 & w2 & w3 & w4 & H1 & H2 & H3 & H4 & ->).
  assert (command (self w2) ≠ MigratorUnknown) as Hcmd.
  { destruct (decide (command (self w1) = MigratorUnknown)) as [Hu|Hu].
    - apply inferCommand_infer in H2 as (a & _ & ->); [|done]. simpl.
      by destruct (0 <? size a).
    - rewrite inferCommand_skip in H2 by done. by simplify_eq. }
  clear H1 H2. frame_steps. open_inferPatch. by chase.
Qed.

(** A command that is given is kept. *)
Lemma SolveChange_known_command (w w' : World) r :
  SolveChange w = (r, w') → command (self w) ≠ MigratorUnknown →
  command (self w') = command (self w).
Proof.
  intros Hrun Hcmd.
  split_steps Hrun;
    try (apply inferAfter_command in Hafter as Hc1; simpl in Hc1;
         rewrite inferCommand_skip in Hcommand by (by rewrite Hc1);
         simplify_eq);
    frame_steps; open_inferPatch; by chase.
Qed.

(** A command that was inferred is Set or Delete. *)
Lemma inferred_command (w w' : World) :
  command (self w) = MigratorUnknown → SolveChange w = (None, w') →
  command (self w') = MigratorSet ∨ command (self w') = MigratorDelete.
Proof.
  intros Hcmd Hrun.
  apply SolveChange_ok in Hrun as (w1 & w2 & w3 & w4 & H1 & H2 & H3 & H4 & ->).
  apply inferCommand_infer in H2 as (a & _ & Hw2);
    [|by rewrite (inferAfter_command _ _ _ H1)].
  clear H1. frame_steps. open_inferPatch. chase.
  destruct (0 <? size a); auto.
Qed.

(** X3. Whatever its outcome, [SolveChange] leaves [docPath], [before],
    [instruction] and [database] as they were.  The code of [change.go]
    makes no call on the client while it resolves: the calls it records
    are those of the diff/patch adapter, and it hands the client to
    [SerializeData] and [DeSerializeData] only, so that with any other
    client that these two treat alike the resolution runs the same.  What
    these two functions, which are not in [change.go], do with the client
    is no part of the statement. *)
Theorem SolveChange_keeps_inputs (w w' : World) r :
  SolveChange w = (r, w') →
  docPath (self w') = docPath (self w) ∧
  before (self w') = before (self w) ∧
  instruction (self w') = instruction (self w) ∧
  database (self w') = database (self w) ∧
  (∃ evs, trace w' = trace w ++ evs ∧ Forall (λ e, is_database e = false) evs) ∧
  (∀ db', serialized_alike (database (self w)) db' →
     SolveChange (with_database db' w) = (r, with_database db' w')).
Proof.
  intros Hrun.
  pose proof (SolveChange_no_database _ _ _ Hrun) as Htrace.
  destruct (SolveChange_inputs _ _ _ Hrun) as (? & ? & ? & ?).
  repeat split; try done.
  intros db' Hlike. by rewrite SolveChange_client, Hrun.
Qed.

(** X4. A resolution that succeeds leaves [errState] nil, [before] and
    [after] non-nil, and a command that is not Unknown. *)
Theorem SolveChange_ok_state (w w' : World) :
  SolveChange w = (None, w') →
  errState (self w') = None ∧
  before (self w') ≠ None ∧ after (self w') ≠ None ∧
  command (self w') ≠ MigratorUnknown.
Proof.
  intros Hrun.
  pose proof (SolveChange_errState w) as Herr. rewrite Hrun in Herr. simpl in Herr.
  pose proof (resolved_command _ _ Hrun) as Hcmd.
  split; [done|]. split; [|split; [|done]];
    apply SolveChange_ok in Hrun as (w1 & w2 & w3 & w4 & H1 & H2 & H3 & H4 & ->);
    destruct (inferPrettyDiff_needs _ _ H3) as [Hb Ha];
    clear H1 H2 Hcmd; frame_steps; open_inferPatch; by chase.
Qed.

(** X5. [SolveChange] changes [patch] only by the fill-in of a patch
    without fields at the end of a successful resolution, where it becomes
    [after] under a command Add, Set or Update; a patch that has a field
    is never replaced. *)
Theorem SolveChange_patch (w w' : World) r :
  SolveChange w = (r, w') →
  patch (self w') = patch (self w) ∨
  (r = None ∧ len (patch (self w)) = 0 ∧ patch (self w') = after (self w') ∧
   (command (self w') = MigratorAdd ∨ command (self w') = MigratorSet
    ∨ command (self w') = MigratorUpdate)).
Proof.
  intros Hrun. split_steps Hrun;
    try (left; frame_steps; by chase).
  pose proof (inferPatch_self w4) as Hp. frame_steps. chase. rewrite Hp. clear Hp.
  case_match eqn:Hfill; [|left; by chase].
  right. chase. apply andb_true_iff in Hfill as [Hlen Hcmd].
  apply Nat.eqb_eq in Hlen. split; [done|]. split; [done|]. split; [done|].
  rewrite !orb_true_iff, !bool_decide_eq_true in Hcmd. tauto.
Qed.

End Outcomes.

Section Guards.
Context `{Deps}.

(** X6. The commands that skip the patch computation still need [before]
    and, but for Delete, [patch]: with Set or Add and a nil [before] or a
    nil [patch], and with Delete and a nil [before], [SolveChange] fails
    with the error of the pretty-diff guard, having assigned [after]
    ([patch], or the empty map for Delete) and made no external call. *)
Theorem shortcut_needs_before (w : World) :
  ((command (self w) = MigratorSet ∨ command (self w) = MigratorAdd) ∧
   (before (self w) = None ∨ patch (self w) = None)) ∨
  (command (self w) = MigratorDelete ∧ before (self w) = None) →
  SolveChange w =
    (Some missing_for_diff,
     failed missing_for_diff
       {| self := set_after (match command (self w) with
                             | MigratorDelete => Some ∅
                             | _ => patch (self w)
                             end) (self (cleared w));
          trace := trace w |}).
Proof.
  intros [[Hcmd Hnil]|[Hcmd Hnil]]; rewrite SolveChange_unfold.
  - rewrite (inferAfter_shortcut (cleared w)) by done.
    rewrite inferCommand_skip by (destruct Hcmd as [Hc|Hc]; simpl; by rewrite Hc).
    unfold inferPrettyDiff. unfold_monad. simpl.
    destruct Hcmd as [Hc|Hc]; rewrite Hc;
      (destruct Hnil as [-> | ->]; [done|]); by rewrite orb_true_r.
  - rewrite (inferAfter_Delete (cleared w)) by done.
    rewrite inferCommand_skip by (simpl; by rewrite Hcmd).
    unfold inferPrettyDiff. unfold_monad. simpl. by rewrite Hcmd, Hnil.
Qed.

(** X7. Once [inferPrettyDiff] has succeeded, the guard of [inferRollback]
    cannot fire: [inferRollback] fails only with an error returned by
    [json.Marshal] or by [GetDiffPatch]. *)
Theorem inferRollback_after_diff (w2 w3 w4 : World) (e : error) :
  inferPrettyDiff w2 = (None, w3) →
  inferRollback w3 = (Some e, w4) →
  (∃ m, Marshal m = Err e) ∨ (∃ a b, GetDiffPatch a b = Err e).
Proof.
  intros Hdiff Hroll.
  destruct (inferPrettyDiff_needs _ _ Hdiff) as [Hb Ha].
  apply inferPrettyDiff_frame in Hdiff as (s & k & Hw3 & _).
  destruct w3 as [c3 tr3]. simpl in *. subst c3.
  unfold inferRollback, beforeAfterCache, fetchCache, call_GetDiffPatch in Hroll.
  unfold_monad. simpl in *.
  destruct (before (self w2)); [|done]. destruct (after (self w2)); [|done].
  simpl in *.
  repeat (case_match; simplify_eq/=); eauto.
Qed.

(** X8. After a failed resolution [Present] shows the error block with the
    error [SolveChange] returned, provided its text has no [%]: [Present]
    hands the text to [fmt.Sprintf] as the format. *)
Theorem Present_after_failure (w w' : World) (e : error) :
  Sprintf_verbatim →
  SolveChange w = (Some e, w') → verb_free e = true →
  (Present (self w')).2 = error_block e.
Proof.
  intros Hfmt Hrun He. apply Present_error; [done| |done].
  pose proof (SolveChange_errState w) as Herr. by rewrite Hrun in Herr.
Qed.

(** X9. A Change as [NewChange] returns it, not yet resolved, is presented
    as an error: the header names the document and the command as given,
    UNKNOWN included, and the body is the error block of the initial error
    state, never the text for no changes. *)
Theorem Present_unsolved (path : string) (b p : GoMap RichValue) (cmd : Command)
    (instr : string) (db : Firestore) :
  Sprintf_verbatim →
  Present (NewChange path b p cmd instr db) =
  (["Target: " +:+ blue path; (" >> [" +:+ shown_command cmd +:+ "]") +:+ nl +:+ nl],
   error_block (errors_New "Change has not yet been solved.")).
Proof.
  intros Hfmt.
  rewrite (surjective_pairing (Present _)). f_equal.
  - unfold Present, commandString. simpl. by destruct cmd.
  - by apply Present_error.
Qed.

(** X10. After a successful resolution the header [Present] gives is the
    target line with the document path and the line of the command.  When
    the command given is one of the five constants it shows UPDATE, SET,
    ADD or DELETE, never UNKNOWN.  A command outside the constants
    ([Command] is an [int]) passes the resolution unchanged and is shown
    as UNKNOWN, although the Change is resolved. *)
Theorem Present_header_resolved (w w' : World) :
  SolveChange w = (None, w') →
  (Present (self w')).1 =
    ["Target: " +:+ blue (docPath (self w));
     (" >> [" +:+ shown_command (command (self w')) +:+ "]") +:+ nl +:+ nl] ∧
  match command (self w) with
  | CommandOther n =>
    command (self w') = CommandOther n ∧
    shown_command (command (self w')) = "UNKNOWN"
  | _ => shown_command (command (self w')) ∈ shown_commands
  end.
Proof.
  intros Hrun.
  pose proof (resolved_command _ _ Hrun) as Hcmd.
  pose proof (SolveChange_known_command _ _ _ Hrun) as Hkeep.
  pose proof (SolveChange_errState w) as Herr. rewrite Hrun in Herr. simpl in Herr.
  destruct (SolveChange_inputs _ _ _ Hrun) as (Hpath & _).
  split.
  - unfold Present. rewrite Herr, Hpath. unfold commandString.
    destruct (command (self w')); by case_match.
  - unfold shown_commands.
    destruct (command (self w)) eqn:Hc;
      try (rewrite Hkeep by done; simpl; set_solver).
    destruct (inferred_command _ _ Hc Hrun) as [-> | ->]; simpl; set_solver.
Qed.

(** X11. Executing a Change that was resolved from the command Unknown: the
    operation dispatched is set-document when the derived [after] has a
    field and delete-document when it has none, never update-document;
    what is set is the transformed input patch if that had a field, and
    the transformed [after] otherwise. *)
Theorem push_resolved_Unknown (transformer : GoMap RichValue → GoMap RichValue)
    (w w' : World) :
  command (self w) = MigratorUnknown →
  SolveChange w = (None, w') →
  ∃ a, after (self w') = Some a ∧
    pushChange transformer w' =
    (let op :=
       if 0 <? size a
       then OpSetDoc (docPath (self w))
              (transformer (if len (patch (self w)) =? 0
                            then Some a else patch (self w)))
       else OpDeleteDoc (docPath (self w)) in
     (respond (database (self w)) op,
      {| self := self w'; trace := trace w' ++ [EvDatabase op] |})).
Proof.
  intros Hcmd Hrun.
  apply SolveChange_ok in Hrun as (w1 & w2 & w3 & w4 & H1 & H2 & H3 & H4 & ->).
  apply inferCommand_infer in H2 as (a & Ha & Hw2);
    [|by rewrite (inferAfter_command _ _ _ H1)].
  pose proof (inferPatch_self w4) as Hp.
  destruct (inferPatch w4).2 as [c' tr'] eqn:Hw'. simpl in Hp.
  exists a. frame_steps. chase.
  unfold pushChange, UpdateDoc, SetDoc, DeleteDoc, dispatch. unfold_monad. simpl.
  subst c'. rewrite Ha.
  destruct (0 <? size a) eqn:Hsz; simpl.
  - by destruct (len (patch (self w)) =? 0) eqn:Hlen.
  - by rewrite andb_false_r.
Qed.

End Guards.

Section Calls.
Context `{Deps}.

Lemma inferAfter_calls (w w' : World) :
  inferAfter w = (None, w') →
  match command (self w) with
  | MigratorSet | MigratorAdd | MigratorDelete => trace w' = trace w
  | _ => ∃ bm pm, trace w' = trace w ++ [EvApplyDiffPatch bm pm]
  end.
Proof. destruct w as [c tr]. intros Hrun. run_step; eauto. Qed.

Lemma inferPrettyDiff_run (w w' : World) :
  inferPrettyDiff w = (None, w') →
  ∃ sB sA,
    cache (self w') !! "serialBefore" = Some sB ∧
    cache (self w') !! "serialAfter" = Some sA ∧
    PrettyDiff sB sA = Ok (prettyDiff (self w')) ∧
    trace w' = trace w ++ [EvPrettyDiff sB sA].
Proof.
  destruct w as [c tr]. intros Hrun. run_step;
    match goal with E : PrettyDiff ?x ?y = Ok _ |- _ => exists x, y end;
    repeat split; try done;
    rewrite ?lookup_insert_ne by done; by rewrite ?lookup_insert_eq.
Qed.

Lemma inferRollback_run (w w' : World) sB sA :
  inferRollback w = (None, w') →
  cache (self w) !! "serialBefore" = Some sB →
  cache (self w) !! "serialAfter" = Some sA →
  ∃ ma mb, Marshal sA = Ok ma ∧ Marshal sB = Ok mb ∧
    GetDiffPatch ma mb = Ok (rollback (self w')) ∧
    trace w' = trace w ++ [EvGetDiffPatch ma mb] ∧
    cache (self w') = cache (self w).
Proof.
  destruct w as [c tr]. simpl. intros Hrun HsB HsA.
  unfold inferRollback, beforeAfterCache, fetchCache, call_GetDiffPatch in Hrun.
  unfold_monad. simpl in *.
  destruct (is_nil (before c) || is_nil (after c)); [done|]. simpl in *.
  rewrite HsB in Hrun. simpl in *. rewrite HsA in Hrun. simpl in *.
  destruct (Marshal sA) as [ma|] eqn:Hma; [|done].
  destruct (Marshal sB) as [mb|] eqn:Hmb; [|done]. simpl in *.
  destruct (GetDiffPatch ma mb) as [r|] eqn:Hr; simplify_eq/=.
  by exists ma, mb.
Qed.

(** X12. The external calls of a successful resolution, in order: one
    [ApplyDiffPatch] unless the command is Set, Add or Delete, then one
    [PrettyDiff], then one [GetDiffPatch], and nothing else.  The pretty
    diff and the rollback are computed from the same two serializations,
    the ones the cache holds under serialBefore and serialAfter. *)
Theorem SolveChange_calls (w w' : World) :
  SolveChange w = (None, w') →
  ∃ pre sB sA ma mb,
    trace w' = trace w ++ pre ++ [EvPrettyDiff sB sA; EvGetDiffPatch ma mb] ∧
    match command (self w) with
    | MigratorSet | MigratorAdd | MigratorDelete => pre = []
    | _ => ∃ bm pm, pre = [EvApplyDiffPatch bm pm]
    end ∧
    cache (self w') !! "serialBefore" = Some sB ∧
    cache (self w') !! "serialAfter" = Some sA ∧
    Marshal sA = Ok ma ∧ Marshal sB = Ok mb ∧
    PrettyDiff sB sA = Ok (prettyDiff (self w')) ∧
    GetDiffPatch ma mb = Ok (rollback (self w')).
Proof.
  intros Hrun.
  apply SolveChange_ok in Hrun as (w1 & w2 & w3 & w4 & H1 & H2 & H3 & H4 & ->).
  pose proof (inferAfter_calls _ _ H1) as Hpre. simpl in Hpre.
  apply inferCommand_frame in H2 as (Ht2 & _).
  destruct (inferPrettyDiff_run _ _ H3) as (sB & sA & HsB & HsA & Hpd & Ht3).
  destruct (inferRollback_run _ _ _ _ H4 HsB HsA)
    as (ma & mb & Hma & Hmb & Hr & Ht4 & Hc4).
  destruct (inferPatch_frame w4) as (Ht5 & p & Hw5).
  apply inferRollback_frame in H4 as (s4 & k4 & Hw4 & _).
  assert (∃ pre, trace w1 = trace w ++ pre ∧
            match command (self w) with
            | MigratorSet | MigratorAdd | MigratorDelete => pre = []
            | _ => ∃ bm pm, pre = [EvApplyDiffPatch bm pm]
            end) as (pre & Ht1 & Hshape).
  { destruct (command (self w)).
    - destruct Hpre as (bm & pm & ->). eauto.
    - destruct Hpre as (bm & pm & ->). eauto.
    - exists []. by rewrite app_nil_r.
    - exists []. by rewrite app_nil_r.
    - exists []. by rewrite app_nil_r.
    - destruct Hpre as (bm & pm & ->). eauto. }
  exists pre, sB, sA, ma, mb.
  assert (cache (self (inferPatch w4).2) = cache (self w3)) as Hc5
    by (by rewrite inferPatch_cache).
  assert (prettyDiff (self (inferPatch w4).2) = prettyDiff (self w3)) as Hp5
    by (by rewrite Hw5, Hw4).
  assert (rollback (self (inferPatch w4).2) = rollback (self w4)) as Hr5
    by (by rewrite Hw5).
  rewrite Hc5, Hp5, Hr5. split.
  { rewrite Ht5, Ht4, Ht3, Ht2, Ht1. simpl. by rewrite <- !app_assoc. }
  by repeat split.
Qed.

End Calls.

Section Instruction.
Context `{Deps}.

(** Run a step on a world and on the same world with another instruction,
    side by side. *)
Ltac commute_step :=
  unfold inferCommand, inferPrettyDiff, inferRollback, inferPatch,
    beforeAfterCache, fetchCache, call_GetDiffPatch, call_PrettyDiff,
    with_instruction;
  unfold_monad; simpl;
  repeat (case_match; simplify_eq/=);
  repeat match goal with
  | E1 : ?x = _, E2 : ?x = _ |- _ => rewrite E1 in E2; simplify_eq/=
  end;
  reflexivity.

Lemma inferCommand_instruction (i : string) (w : World) :
  inferCommand (with_instruction i w) =
  (let (r, w') := inferCommand w in (r, with_instruction i w')).
Proof. destruct w as [c tr]. commute_step. Qed.

Lemma inferPrettyDiff_instruction (i : string) (w : World) :
  inferPrettyDiff (with_instruction i w) =
  (let (r, w') := inferPrettyDiff w in (r, with_instruction i w')).
Proof. destruct w as [c tr]. commute_step. Qed.

Lemma inferRollback_instruction (i : string) (w : World) :
  inferRollback (with_instruction i w) =
  (let (r, w') := inferRollback w in (r, with_instruction i w')).
Proof. destruct w as [c tr]. commute_step. Qed.

Lemma inferPatch_instruction (i : string) (w : World) :
  (inferPatch (with_instruction i w)).2 = with_instruction i (inferPatch w).2.
Proof. destruct w as [c tr]. commute_step. Qed.

Lemma inferAfter_instruction (i : string) (w : World) :
  (command (self w) = MigratorSet ∨ command (self w) = MigratorAdd
   ∨ command (self w) = MigratorDelete) ∨ 0 < len (patch (self w)) →
  inferAfter (with_instruction i w) =
  (let (r, w') := inferAfter w in (r, with_instruction i w')).
Proof.
  destruct w as [c tr]. simpl. intros Hcase.
  unfold inferAfter, fetchCache, call_ApplyDiffPatch, with_instruction.
  unfold_monad. simpl.
  destruct Hcase as [[Hc|[Hc|Hc]]|Hlen]; rewrite ?Hc; try reflexivity.
  destruct (patch c) as [p|] eqn:Hp; [|simpl in Hlen; lia].
  assert ((size p =? 0) = false) as Hsz by (apply Nat.eqb_neq; simpl in Hlen; lia).
  simpl. rewrite Hsz, !andb_false_r, !orb_false_r.
  destruct (command c); try reflexivity;
  (destruct (is_nil (before c)); [reflexivity|]); simpl;
  repeat (case_match; simplify_eq/=);
  repeat match goal with
  | E1 : ?x = _, E2 : ?x = _ |- _ => rewrite E1 in E2; simplify_eq/=
  end;
  reflexivity.
Qed.

(** X13. The instruction is read only where the patch has no field and the
    command is Unknown or Update: with a command Set, Add or Delete, or with
    a patch that has a field, [SolveChange] runs the same with any other
    instruction - same result, same calls, same derived fields. *)
Theorem instruction_unused (i : string) (w : World) :
  (command (self w) = MigratorSet ∨ command (self w) = MigratorAdd
   ∨ command (self w) = MigratorDelete) ∨ 0 < len (patch (self w)) →
  SolveChange (with_instruction i w) =
  (let (r, w') := SolveChange w in (r, with_instruction i w')).
Proof.
  intros Hcase. rewrite !SolveChange_unfold.
  change (cleared (with_instruction i w)) with (with_instruction i (cleared w)).
  rewrite inferAfter_instruction by done.
  destruct (inferAfter (cleared w)) as [[e|] w1]; [reflexivity|].
  rewrite inferCommand_instruction.
  destruct (inferCommand w1) as [[e|] w2]; [reflexivity|].
  rewrite inferPrettyDiff_instruction.
  destruct (inferPrettyDiff w2) as [[e|] w3]; [reflexivity|].
  rewrite inferRollback_instruction.
  destruct (inferRollback w3) as [[e|] w4]; [reflexivity|].
  by rewrite inferPatch_instruction.
Qed.

End Instruction.

(** * Resolving a Change again *)

Section Repeat.
Context `{Deps}.

Lemma fetchCache_hit (key : string) (d : GoMap RichValue) (v : World) x :
  cache (self v) !! key = Some x → fetchCache key d v = (x, v).
Proof.
  destruct v as [c tr]. simpl. intros Hk.
  unfold fetchCache. unfold_monad. simpl. by rewrite Hk.
Qed.

Lemma beforeAfterCache_hit (v : World) sB sA :
  cache (self v) !! "serialBefore" = Some sB →
  cache (self v) !! "serialAfter" = Some sA →
  beforeAfterCache v = ((sB, sA), v).
Proof.
  intros HB HA. unfold beforeAfterCache. unfold_monad.
  rewrite (fetchCache_hit _ _ _ _ HB). by rewrite (fetchCache_hit _ _ _ _ HA).
Qed.

Lemma beforeAfterCache_run (w w' : World) sB sA :
  beforeAfterCache w = ((sB, sA), w') →
  cache (self w') !! "serialBefore" = Some sB ∧
  cache (self w') !! "serialAfter" = Some sA ∧
  self w' = set_cache (cache (self w')) (self w) ∧ trace w' = trace w.
Proof.
  destruct w as [c tr]. intros Hrun.
  unfold beforeAfterCache, fetchCache in Hrun. unfold_monad. simpl in *.
  destruct (cache c !! "serialBefore") as [x|] eqn:HB; simpl in *.
  - destruct (cache c !! "serialAfter") as [y|] eqn:HA; simplify_eq/=.
    + repeat split; try done. by destruct c.
    + rewrite lookup_insert_eq, lookup_insert_ne by done. by repeat split.
  - rewrite lookup_insert_ne in Hrun by done.
    destruct (cache c !! "serialAfter") as [y|] eqn:HA; simplify_eq/=.
    + rewrite lookup_insert_eq, lookup_insert_ne by done. by repeat split.
    + rewrite lookup_insert_eq, lookup_insert_ne, lookup_insert_eq by done.
      by repeat split.
Qed.

(** A second [inferPrettyDiff] on the values and the cache entries of a
    first one. *)
Lemma inferPrettyDiff_again (w w' v : World) r :
  inferPrettyDiff w = (r, w') →
  is_nil (before (self v)) = is_nil (before (self w)) →
  is_nil (after (self v)) = is_nil (after (self w)) →
  cache (self w') ⊆ cache (self v) →
  ∃ evs, inferPrettyDiff v =
    (r, {| self := match r with
                   | Some _ => self v
                   | None => set_prettyDiff (prettyDiff (self w')) (self v)
                   end;
           trace := trace v ++ evs |}).
Proof.
  intros Hrun Hb Ha Hsub.
  unfold inferPrettyDiff, call_PrettyDiff in *. unfold_monad.
  rewrite Hb, Ha.
  destruct (is_nil (before (self w)) || is_nil (after (self w))).
  { simplify_eq. exists []. rewrite app_nil_r. by destruct v. }
  destruct (beforeAfterCache w) as [[sB sA] w1] eqn:Hba.
  apply beforeAfterCache_run in Hba as (HsB & HsA & Hw1 & _).
  assert (cache (self w') = cache (self w1)) as Hk
    by (destruct (PrettyDiff sB sA); by simplify_eq/=).
  rewrite Hk in Hsub.
  pose proof (lookup_weaken _ _ _ _ HsB Hsub) as HB.
  pose proof (lookup_weaken _ _ _ _ HsA Hsub) as HA.
  rewrite (beforeAfterCache_hit _ _ _ HB HA).
  destruct (PrettyDiff sB sA); simplify_eq/=; by eexists.
Qed.

(** A second [inferRollback] on the values and the cache entries of a
    first one. *)
Lemma inferRollback_again (w w' v : World) r :
  inferRollback w = (r, w') →
  is_nil (before (self v)) = is_nil (before (self w)) →
  is_nil (after (self v)) = is_nil (after (self w)) →
  cache (self w') ⊆ cache (self v) →
  ∃ evs, inferRollback v =
    (r, {| self := match r with
                   | Some _ => self v
                   | None => set_rollback (rollback (self w')) (self v)
                   end;
           trace := trace v ++ evs |}).
Proof.
  intros Hrun Hb Ha Hsub.
  unfold inferRollback, call_GetDiffPatch in *. unfold_monad.
  rewrite Hb, Ha.
  destruct (is_nil (before (self w)) || is_nil (after (self w))).
  { simplify_eq. exists []. rewrite app_nil_r. by destruct v. }
  destruct (beforeAfterCache w) as [[sB sA] w1] eqn:Hba.
  apply beforeAfterCache_run in Hba as (HsB & HsA & Hw1 & _).
  assert (cache (self w') = cache (self w1)) as Hk.
  { destruct (Marshal sA); [|by simplify_eq/=].
    destruct (Marshal sB); [|by simplify_eq/=].
    destruct (GetDiffPatch _ _); by simplify_eq/=. }
  rewrite Hk in Hsub.
  pose proof (lookup_weaken _ _ _ _ HsB Hsub) as HB.
  pose proof (lookup_weaken _ _ _ _ HsA Hsub) as HA.
  rewrite (beforeAfterCache_hit _ _ _ HB HA).
  destruct (Marshal sA); [|simplify_eq/=; exists []; rewrite app_nil_r; by destruct v].
  destruct (Marshal sB); [|simplify_eq/=; exists []; rewrite app_nil_r; by destruct v].
  destruct (GetDiffPatch _ _); simplify_eq/=; by eexists.
Qed.

Lemma fetchCache_run (key : string) (d : GoMap RichValue) (w w' : World) x :
  fetchCache key d w = (x, w') →
  cache (self w') !! key = Some x ∧ cache (self w) ⊆ cache (self w') ∧
  self w' = set_cache (cache (self w')) (self w) ∧ trace w' = trace w.
Proof.
  destruct w as [c tr]. intros Hrun.
  unfold fetchCache in Hrun. unfold_monad. simpl in *.
  destruct (cache c !! key) as [y|] eqn:Hk; simplify_eq/=.
  - repeat split; try done. by destruct c.
  - rewrite lookup_insert_eq. repeat split; try done.
    by apply insert_subseteq.
Qed.

(** A second [inferAfter] on the inputs and the cache entries of a first
    one. *)
Lemma inferAfter_again (w w' v : World) r :
  inferAfter w = (r, w') →
  command (self v) = command (self w) →
  before (self v) = before (self w) → patch (self v) = patch (self w) →
  instruction (self v) = instruction (self w) →
  database (self v) = database (self w) →
  cache (self w') ⊆ cache (self v) →
  ∃ evs, inferAfter v =
    (r, {| self := match r with
                   | Some _ => self v
                   | None => set_after (after (self w')) (self v)
                   end;
           trace := trace v ++ evs |}).
Proof.
  intros Hrun Hc Hb Hp Hi Hd Hsub.
  unfold inferAfter, call_ApplyDiffPatch in *. unfold_monad.
  rewrite Hc, Hb, Hp, Hi, Hd.
  assert (is_nil (before (self w)) ||
          is_nil (patch (self w)) && bool_decide (instruction (self w) = "")
          = true ∨
          is_nil (before (self w)) ||
          is_nil (patch (self w)) && bool_decide (instruction (self w) = "")
          = false) as [Hg|Hg] by (by destruct (_ || _); [left|right]).
  { rewrite Hg in *.
    destruct (command (self w)); simplify_eq/=;
      exists []; rewrite app_nil_r; by destruct v. }
  rewrite Hg in *.
  destruct (command (self w)) eqn:Hcmd;
    try (simplify_eq/=; exists []; rewrite app_nil_r; by destruct v);
    (destruct (fetchCache "sBefore" (before (self w)) w) as [sB w1] eqn:H1;
     rewrite ?H1 in Hrun; cbv beta iota in Hrun;
     destruct (fetchCache "sPatch" (patch (self w)) w1) as [sP w2] eqn:H2;
     rewrite ?H2 in Hrun; cbv beta iota in Hrun;
     apply fetchCache_run in H1 as (HsB & Hsub1 & _);
     apply fetchCache_run in H2 as (HsP & Hsub2 & _);
     assert (cache (self w') = cache (self w2)) as Hk
       by ((destruct (Marshal sB); [|by simplify_eq/=]);
           (destruct (if _ && _ then _ else _); [|by simplify_eq/=]);
           destruct (ApplyDiffPatch _ _); by simplify_eq/=);
     rewrite Hk in Hsub;
     rewrite (fetchCache_hit "sBefore" _ v sB)
       by (eapply lookup_weaken; [|done]; by eapply lookup_weaken);
     rewrite (fetchCache_hit "sPatch" _ v sP) by (by eapply lookup_weaken);
     (destruct (Marshal sB);
       [|simplify_eq/=; exists []; rewrite app_nil_r; by destruct v]);
     (destruct (if _ && _ then _ else _);
       [|simplify_eq/=; exists []; rewrite app_nil_r; by destruct v]);
     destruct (ApplyDiffPatch _ _); simplify_eq/=; by eexists).
Qed.

(** A second [inferCommand] on the command and the [after] of a first
    one. *)
Lemma inferCommand_again (w w' v : World) r :
  inferCommand w = (r, w') →
  command (self v) = command (self w) → after (self v) = after (self w) →
  inferCommand v =
  (r, {| self := set_command (command (self w')) (self v); trace := trace v |}).
Proof.
  destruct w as [c tr], v as [cv trv]. simpl. intros Hrun Hc Ha.
  unfold inferCommand in *. unfold_monad. simpl in *. rewrite Hc, Ha.
  destruct cv. simpl in *. subst.
  repeat (case_match; simplify_eq/=); unfold set_command; simpl; congruence.
Qed.

Lemma cache_extends_subseteq keys (k k' : gmap string (GoMap Canonical)) :
  cache_extends keys k k' → k ⊆ k'.
Proof. intros [Hk _]. by apply map_subseteq_spec. Qed.

(** No step removes or replaces a cache entry. *)
Lemma step_cache_grows (w w' : World) r :
  inferAfter w = (r, w') ∨ inferCommand w = (r, w') ∨
  inferPrettyDiff w = (r, w') ∨ inferRollback w = (r, w') →
  cache (self w) ⊆ cache (self w').
Proof.
  intros [Hrun|[Hrun|[Hrun|Hrun]]].
  - eapply cache_extends_subseteq, inferAfter_extends, Hrun.
  - by rewrite (inferCommand_cache _ _ _ Hrun).
  - eapply cache_extends_subseteq, inferPrettyDiff_extends, Hrun.
  - eapply cache_extends_subseteq, inferRollback_extends, Hrun.
Qed.

Lemma World_eq (a b : World) : self a = self b → trace a = trace b → a = b.
Proof. destruct a, b. simpl. by intros -> ->. Qed.

Lemma outcome_eq (r : option error) (a b : World) :
  self a = self b → trace a = trace b → (r, a) = (r, b).
Proof. intros Hs Ht. by rewrite (World_eq a b). Qed.

(** No growth of the cache from [w] to [w'] has been noted yet. *)
Ltac unseen w w' :=
  lazymatch goal with
  | _ : cache (self w) ⊆ cache (self w') |- _ => fail
  | _ => idtac
  end.

(** What the steps of a first run left, kept beside the runs. *)
Ltac note_frames :=
  repeat match goal with
  | E : inferAfter ?w = (_, ?w') |- _ =>
    unseen w w';
    pose proof (step_cache_grows w w' _ (or_introl E));
    pose proof (inferAfter_frame _ _ _ E) as (?a & ?k & ?Hself & ?Hkeep)
  | E : inferCommand ?w = (_, ?w') |- _ =>
    unseen w w';
    pose proof (step_cache_grows w w' _ (or_intror (or_introl E)));
    pose proof (inferCommand_frame _ _ _ E) as (?Htrace & ?cmd & ?Hself & ?Hkeep)
  | E : inferPrettyDiff ?w = (_, ?w') |- _ =>
    unseen w w';
    pose proof (step_cache_grows w w' _ (or_intror (or_intror (or_introl E))));
    pose proof (inferPrettyDiff_frame _ _ _ E) as (?s & ?k & ?Hself & ?Hkeep)
  | E : inferRollback ?w = (_, ?w') |- _ =>
    unseen w w';
    pose proof (step_cache_grows w w' _ (or_intror (or_intror (or_intror E))));
    pose proof (inferRollback_frame _ _ _ E) as (?s & ?k & ?Hself & ?Hkeep)
  end;
  repeat match goal with
  | Hkeep : is_Some (Some _) → _ |- _ => specialize (Hkeep ltac:(done))
  | Hkeep : is_Some None → _ |- _ => clear Hkeep
  end.

(** A goal on a cache of the second run: a chain of the steps' growth. *)
Ltac cache_chain :=
  unfold cleared, failed; simpl; rewrite ?inferPatch_cache;
  repeat (try done; etrans; [eassumption|]).

(** A goal on a field of the second run: through the frames. *)
Ltac through_frames :=
  unfold after_calls in *; chase; subst; simpl in *.

(** The side conditions of a replayed step. *)
Ltac side := first [done | by cache_chain | by through_frames].

(** Two receivers built from the same one by the same assignments. *)
Ltac same_record :=
  match goal with |- context [self ?w] => is_var w; destruct (self w) end;
  vm_compute; reflexivity.

(** The second run has left the receiver of the first. *)
Ltac same_world :=
  eexists; apply outcome_eq;
  [ through_frames; same_record
  | unfold cleared, failed, after_calls; simpl; rewrite <- ?app_assoc;
    reflexivity ].

(** Replay the next step of the first run. *)
Ltac replay :=
  match goal with
  | E : inferAfter _ = _ |- context [inferAfter ?v] =>
    let ev := fresh "ev" in
    destruct (inferAfter_again _ _ v _ E) as (ev & ->); [side..|]
  | E : inferCommand _ = _ |- context [inferCommand ?v] =>
    rewrite (inferCommand_again _ _ v _ E); [|side..]
  | E : inferPrettyDiff _ = _ |- context [inferPrettyDiff ?v] =>
    let ev := fresh "ev" in
    destruct (inferPrettyDiff_again _ _ v _ E) as (ev & ->); [side..|]
  | E : inferRollback _ = _ |- context [inferRollback ?v] =>
    let ev := fresh "ev" in
    destruct (inferRollback_again _ _ v _ E) as (ev & ->); [side..|]
  end.

(** A resolution that left [command] and [patch] as they were can be run
    again to the same effect. *)
Lemma SolveChange_again (w w' : World) r :
  SolveChange w = (r, w') →
  command (self w') = command (self w) → patch (self w') = patch (self w) →
  ∃ evs, SolveChange w' = (r, after_calls evs w').
Proof.
  intros Hrun Hc Hp. rewrite (SolveChange_unfold w').
  split_steps Hrun.
  - note_frames. replay. same_world.
  - note_frames. do 2 replay. same_world.
  - note_frames. do 3 replay. same_world.
  - note_frames. do 4 replay. same_world.
  - pose proof (inferPatch_self w4) as Hs5.
    pose proof (inferPatch_cache w4) as Hk5.
    destruct (inferPatch_frame w4) as (Ht5 & p5 & Hf5).
    destruct (inferPatch w4) as [u w5]. simpl in *.
    assert (p5 = if (len (patch (self w4)) =? 0) &&
                    (bool_decide (command (self w4) = MigratorAdd)
                     || bool_decide (command (self w4) = MigratorSet)
                     || bool_decide (command (self w4) = MigratorUpdate))
                 then after (self w4) else patch (self w4)) as Hfill.
    { rewrite Hf5 in Hs5. apply (f_equal patch) in Hs5. simpl in Hs5.
      by destruct (_ && _). }
    assert (cache (self w4) ⊆ cache (self w5)) as Hg5 by (by rewrite Hk5).
    clear Hs5 Hk5. note_frames. do 4 replay.
    eexists. apply outcome_eq.
    + rewrite inferPatch_self. through_frames.
      destruct (_ && _); [rewrite <- Hfill|]; same_record.
    + rewrite (proj1 (inferPatch_frame _)).
      unfold cleared, after_calls. simpl. rewrite <- !app_assoc. reflexivity.
Qed.

(** X14. With a command Set, Add or Delete, and with Update and a patch
    that has a field, resolving is repeatable: a second [SolveChange]
    returns what the first returned and leaves every field of the Change as
    the first left it; it only repeats external calls. *)
Theorem SolveChange_repeatable (w w' : World) r :
  (command (self w) = MigratorSet ∨ command (self w) = MigratorAdd
   ∨ command (self w) = MigratorDelete) ∨
  (command (self w) = MigratorUpdate ∧ 0 < len (patch (self w))) →
  SolveChange w = (r, w') →
  ∃ evs, SolveChange w' = (r, after_calls evs w').
Proof.
  intros Hcase Hrun.
  assert (command (self w) ≠ MigratorUnknown) as Hknown
    by (destruct Hcase as [[Hc|[Hc|Hc]]|[Hc _]]; by rewrite Hc).
  pose proof (SolveChange_known_command _ _ _ Hrun Hknown) as Hcmd.
  apply (SolveChange_again _ _ _ Hrun Hcmd).
  clear Hcmd. split_steps Hrun; try (frame_steps; by chase).
  pose proof (inferPatch_self w4) as Hs5.
  apply inferAfter_command in Hafter as Hc1. simpl in Hc1.
  rewrite inferCommand_skip in Hcommand by (by rewrite Hc1). simplify_eq.
  assert (after (self w2) = patch (self w) ∨
          (len (patch (self w)) =? 0) &&
          (bool_decide (command (self w) = MigratorAdd)
           || bool_decide (command (self w) = MigratorSet)
           || bool_decide (command (self w) = MigratorUpdate)) = false) as Hfill.
  { destruct Hcase as [[Hc|[Hc|Hc]]|[Hc Hlen]].
    - left. rewrite (inferAfter_shortcut (cleared w)) in Hafter by auto.
      by simplify_eq.
    - left. rewrite (inferAfter_shortcut (cleared w)) in Hafter by auto.
      by simplify_eq.
    - right. rewrite Hc. simpl. by rewrite andb_false_r.
    - right. apply andb_false_iff. left. apply Nat.eqb_neq. lia. }
  frame_steps. chase. rewrite Hs5. clear Hs5. simpl.
  destruct Hfill as [Ha|Hno].
  - simpl in Ha. case_match; simpl; congruence.
  - by rewrite Hno.
Qed.

(** X15. Resolving again a Change that was resolved from the command
    Unknown succeeds with the pretty diff and the rollback of the first
    resolution, but assigns [after] anew from the command that was
    inferred: with Set it becomes [patch] in place of the document the
    first resolution derived, with Delete the empty map. *)
Theorem SolveChange_twice_Unknown (w w' : World) :
  command (self w) = MigratorUnknown →
  SolveChange w = (None, w') →
  ∃ evs, SolveChange w' =
    (None,
     {| self := set_after (match command (self w') with
                           | MigratorSet => patch (self w')
                           | _ => Some ∅
                           end) (self w');
        trace := trace w' ++ evs |}).
Proof.
  intros Hcmd Hrun.
  apply SolveChange_ok in Hrun as (w1 & w2 & w3 & w4 & H1 & H2 & H3 & H4 & ->).
  pose proof (inferCommand_infer _ _ ltac:(by rewrite (inferAfter_command _ _ _ H1)) H2)
    as (a & Ha & Hw2).
  destruct (inferPrettyDiff_needs _ _ H3) as [Hb2 Ha2].
  pose proof (inferPatch_self w4) as Hs5.
  pose proof (inferPatch_cache w4) as Hk5.
  destruct (inferPatch_frame w4) as (Ht5 & p5 & Hf5).
  destruct (inferPatch w4) as [u w5]. simpl in *.
  assert (cache (self w4) ⊆ cache (self w5)) as Hg5 by (by rewrite Hk5).
  assert (p5 = if (len (patch (self w4)) =? 0) &&
                  (bool_decide (command (self w4) = MigratorAdd)
                   || bool_decide (command (self w4) = MigratorSet)
                   || bool_decide (command (self w4) = MigratorUpdate))
               then after (self w4) else patch (self w4)) as Hfill.
  { rewrite Hf5 in Hs5. apply (f_equal patch) in Hs5. simpl in Hs5.
    by destruct (_ && _). }
  clear Hs5 Hk5. note_frames.
  assert (cmd = if 0 <? size a then MigratorSet else MigratorDelete) as ->.
  { rewrite Hself0 in Hw2. by apply (f_equal command) in Hw2. }
  clear Hw2.
  assert (after (self w4) = Some a) as Ha4 by (by through_frames).
  assert (command (self w5) = if 0 <? size a then MigratorSet else MigratorDelete)
    as Hc5 by (by through_frames).
  assert (command (self w4) = if 0 <? size a then MigratorSet else MigratorDelete)
    as Hc4 by (by through_frames).
  assert (patch (self w5) = p5) as Hp5 by (by rewrite Hf5).
  assert (is_nil (after (self w2)) = false) as Hn2
    by (by destruct (after (self w2))).
  assert (is_nil (after (self w3)) = false) as Hn3
    by (rewrite <- Hn2; by through_frames).
  rewrite Hc4, Ha4 in Hfill. rewrite Hc5, Hp5.
  rewrite (SolveChange_unfold w5).
  destruct (0 <? size a) eqn:Hsz.
  - assert (is_nil p5 = false ∧ (len p5 =? 0) = false) as [Hnil Hlen].
    { apply Nat.ltb_lt in Hsz. simpl in Hfill.
      destruct (len (patch (self w4)) =? 0) eqn:Hl; simpl in Hfill; subst p5.
      - split; [done|]. apply Nat.eqb_neq. simpl. lia.
      - split; [|done]. destruct (patch (self w4)); [done|]. by simpl in Hl. }
    rewrite (inferAfter_shortcut (cleared w5)) by (left; by rewrite <- Hc5).
    rewrite inferCommand_skip by (simpl; by rewrite Hc5).
    match goal with |- context [inferPrettyDiff ?v] =>
      destruct (inferPrettyDiff_again _ _ v _ H3) as (ev3 & ->)
    end; [side|unfold cleared; simpl; by rewrite Hp5, Hnil, Hn2|side|].
    match goal with |- context [inferRollback ?v] =>
      destruct (inferRollback_again _ _ v _ H4) as (ev4 & ->)
    end; [side|unfold cleared; simpl; by rewrite Hp5, Hnil, Hn3|side|].
    exists (ev3 ++ ev4). apply outcome_eq.
    + rewrite inferPatch_self. unfold cleared. simpl. rewrite Hp5, Hlen. simpl.
      through_frames. same_record.
    + rewrite (proj1 (inferPatch_frame _)).
      unfold cleared. simpl. by rewrite <- app_assoc.
  - rewrite (inferAfter_Delete (cleared w5)) by (simpl; by rewrite Hc5).
    rewrite inferCommand_skip by (simpl; by rewrite Hc5).
    match goal with |- context [inferPrettyDiff ?v] =>
      destruct (inferPrettyDiff_again _ _ v _ H3) as (ev3 & ->)
    end; [side|unfold cleared; simpl; by rewrite Hn2|side|].
    match goal with |- context [inferRollback ?v] =>
      destruct (inferRollback_again _ _ v _ H4) as (ev4 & ->)
    end; [side|unfold cleared; simpl; by rewrite Hn3|side|].
    exists (ev3 ++ ev4). apply outcome_eq.
    + rewrite inferPatch_self. unfold cleared. simpl. rewrite Hc5. simpl.
      rewrite andb_false_r. through_frames. same_record.
    + rewrite (proj1 (inferPatch_frame _)).
      unfold cleared. simpl. by rewrite <- app_assoc.
Qed.

End Repeat.

(** * The further properties at work in the concrete setting *)

Module Runs.
Import Demo Cases.

#[local] Existing Instance deps.

(** Scenario A fills the four keys of an empty cache. *)
Lemma SolveChange_cache_grows_witness :
  SolveChange (fresh scenarioA) = (None, resolved scenarioA) ∧
  (∀ key v, cache scenarioA !! key = Some v →
     cache (self (resolved scenarioA)) !! key = Some v) ∧
  (∀ key, key ∉ resolution_keys →
     cache (self (resolved scenarioA)) !! key = cache scenarioA !! key).
Proof.
  split; [vm_compute; reflexivity|].
  apply (SolveChange_cache_grows (H:=deps) (fresh scenarioA) (resolved scenarioA) None).
  vm_compute; reflexivity.
Defined.

(** Scenario A; a client whose calls all fail makes no difference. *)
Lemma SolveChange_keeps_inputs_witness :
  SolveChange (fresh scenarioA) = (None, resolved scenarioA) ∧
  docPath (self (resolved scenarioA)) = docPath scenarioA ∧
  before (self (resolved scenarioA)) = before scenarioA ∧
  instruction (self (resolved scenarioA)) = instruction scenarioA ∧
  database (self (resolved scenarioA)) = database scenarioA ∧
  (∃ evs, trace (resolved scenarioA) = [] ++ evs ∧
     Forall (λ e, is_database e = false) evs) ∧
  serialized_alike (database scenarioA) downClient ∧
  SolveChange (with_database downClient (fresh scenarioA)) =
    (None, with_database downClient (resolved scenarioA)).
Proof.
  assert (SolveChange (fresh scenarioA) = (None, resolved scenarioA)) as Hrun
    by (vm_compute; reflexivity).
  assert (serialized_alike (database scenarioA) downClient) as Hlike by (by split).
  pose proof (SolveChange_keeps_inputs (H:=deps) (fresh scenarioA)
                (resolved scenarioA) None Hrun)
    as (Hpath & Hb & Hi & Hd & Htr & Hclient).
  split; [exact Hrun|]. split; [exact Hpath|]. split; [exact Hb|].
  split; [exact Hi|]. split; [exact Hd|]. split; [exact Htr|].
  split; [exact Hlike|]. exact (Hclient downClient Hlike).
Defined.

Lemma SolveChange_ok_state_witness :
  SolveChange (fresh scenarioA) = (None, resolved scenarioA) ∧
  errState (self (resolved scenarioA)) = None ∧
  before (self (resolved scenarioA)) ≠ None ∧
  after (self (resolved scenarioA)) ≠ None ∧
  command (self (resolved scenarioA)) ≠ MigratorUnknown.
Proof.
  split; [vm_compute; reflexivity|].
  apply (SolveChange_ok_state (H:=deps) (fresh scenarioA) (resolved scenarioA)).
  vm_compute; reflexivity.
Defined.

(** An update by instruction: the patch is filled in. *)
Lemma SolveChange_patch_witness :
  SolveChange (fresh updateByInstruction) = (None, resolved updateByInstruction) ∧
  (patch (self (resolved updateByInstruction)) = patch updateByInstruction ∨
   (None = None :> option error ∧ len (patch updateByInstruction) = 0 ∧
    patch (self (resolved updateByInstruction)) =
      after (self (resolved updateByInstruction)) ∧
    (command (self (resolved updateByInstruction)) = MigratorAdd
     ∨ command (self (resolved updateByInstruction)) = MigratorSet
     ∨ command (self (resolved updateByInstruction)) = MigratorUpdate))).
Proof.
  split; [vm_compute; reflexivity|].
  apply (SolveChange_patch (H:=deps) (fresh updateByInstruction)
           (resolved updateByInstruction) None).
  vm_compute; reflexivity.
Defined.

(** A Set without [before] fails at the pretty diff. *)
Lemma shortcut_needs_before_witness :
  command setWithoutBefore = MigratorSet ∧ before setWithoutBefore = None ∧
  SolveChange (fresh setWithoutBefore) =
    (Some missing_for_diff,
     failed missing_for_diff
       (fresh (set_after (patch setWithoutBefore)
                 (set_errState None setWithoutBefore)))).
Proof.
  split; [reflexivity|]. split; [reflexivity|].
  apply (shortcut_needs_before (H:=deps) (fresh setWithoutBefore)).
  left. split; [left; reflexivity|left; reflexivity].
Defined.

(** With a diff primitive that refuses, the rollback of scenario B fails
    after its pretty diff has been computed. *)
Lemma inferRollback_after_diff_witness :
  @inferPrettyDiff refusingDiff additionWithAfter =
    (None, (@inferPrettyDiff refusingDiff additionWithAfter).2) ∧
  @inferRollback refusingDiff (@inferPrettyDiff refusingDiff additionWithAfter).2 =
    (Some (errors_New "diff: refused"),
     (@inferRollback refusingDiff (@inferPrettyDiff refusingDiff additionWithAfter).2).2) ∧
  ((∃ m, @Marshal refusingDiff m = Err (errors_New "diff: refused")) ∨
   (∃ a b, @GetDiffPatch refusingDiff a b = Err (errors_New "diff: refused"))).
Proof.
  split; [vm_compute; reflexivity|]. split; [vm_compute; reflexivity|].
  apply (inferRollback_after_diff (H:=refusingDiff) additionWithAfter
           (@inferPrettyDiff refusingDiff additionWithAfter).2
           (@inferRollback refusingDiff (@inferPrettyDiff refusingDiff additionWithAfter).2).2
           (errors_New "diff: refused")).
  - vm_compute; reflexivity.
  - vm_compute; reflexivity.
Defined.

(** Scenario D, which fails for want of [before]. *)
Lemma Present_after_failure_witness :
  Sprintf_verbatim ∧
  SolveChange (fresh scenarioD) = (Some missing_inputs, resolved scenarioD) ∧
  verb_free missing_inputs = true ∧
  (Present (self (resolved scenarioD))).2 = error_block missing_inputs.
Proof.
  split; [exact Examples.Sprintf_verbatim_demo|].
  split; [vm_compute; reflexivity|]. split; [reflexivity|].
  apply (Present_after_failure (H:=deps) (fresh scenarioD) (resolved scenarioD)
           missing_inputs Examples.Sprintf_verbatim_demo).
  - vm_compute; reflexivity.
  - reflexivity.
Defined.

Lemma Present_unsolved_witness :
  Sprintf_verbatim ∧
  Present scenarioA =
  (["Target: " +:+ blue "fig/fog"; (" >> [" +:+ "UNKNOWN" +:+ "]") +:+ nl +:+ nl],
   error_block (errors_New "Change has not yet been solved.")).
Proof.
  split; [exact Examples.Sprintf_verbatim_demo|].
  apply (Present_unsolved (H:=deps) "fig/fog" (Some {[ "foo" := RStr "bar" ]})
           (Some {[ "foo" := RStr "baz" ]}) MigratorUnknown "" client
           Examples.Sprintf_verbatim_demo).
Defined.

(** Scenario A, resolved, is shown as a SET; with the command 7 it
    resolves as well, and is shown as UNKNOWN. *)
Lemma Present_header_resolved_witness :
  (SolveChange (fresh scenarioA) = (None, resolved scenarioA) ∧
   (Present (self (resolved scenarioA))).1 =
     ["Target: " +:+ blue (docPath scenarioA);
      (" >> [" +:+ shown_command (command (self (resolved scenarioA))) +:+ "]")
        +:+ nl +:+ nl] ∧
   shown_command (command (self (resolved scenarioA))) ∈ shown_commands) ∧
  (SolveChange (fresh outOfRange) = (None, resolved outOfRange) ∧
   (Present (self (resolved outOfRange))).1 =
     ["Target: " +:+ blue (docPath outOfRange);
      (" >> [" +:+ shown_command (command (self (resolved outOfRange))) +:+ "]")
        +:+ nl +:+ nl] ∧
   command (self (resolved outOfRange)) = Command_of_int 7 ∧
   shown_command (command (self (resolved outOfRange))) = "UNKNOWN").
Proof.
  split.
  - split; [vm_compute; reflexivity|].
    apply (Present_header_resolved (H:=deps) (fresh scenarioA) (resolved scenarioA)).
    vm_compute; reflexivity.
  - split; [vm_compute; reflexivity|].
    apply (Present_header_resolved (H:=deps) (fresh outOfRange) (resolved outOfRange)).
    vm_compute; reflexivity.
Defined.

(** Scenario A, resolved and executed: a set-document of the input patch. *)
Lemma push_resolved_Unknown_witness :
  command scenarioA = MigratorUnknown ∧
  SolveChange (fresh scenarioA) = (None, resolved scenarioA) ∧
  ∃ a, after (self (resolved scenarioA)) = Some a ∧
    pushChange id (resolved scenarioA) =
    (let op :=
       if 0 <? size a
       then OpSetDoc (docPath scenarioA)
              (id (if len (patch scenarioA) =? 0 then Some a else patch scenarioA))
       else OpDeleteDoc (docPath scenarioA) in
     (respond (database scenarioA) op,
      {| self := self (resolved scenarioA);
         trace := trace (resolved scenarioA) ++ [EvDatabase op] |})).
Proof.
  split; [reflexivity|]. split; [vm_compute; reflexivity|].
  apply (push_resolved_Unknown (H:=deps) id (fresh scenarioA) (resolved scenarioA)).
  - reflexivity.
  - vm_compute; reflexivity.
Defined.

(** Scenario A makes the three calls; scenario B would skip the first. *)
Lemma SolveChange_calls_witness :
  SolveChange (fresh scenarioA) = (None, resolved scenarioA) ∧
  ∃ pre sB sA ma mb,
    trace (resolved scenarioA) =
      [] ++ pre ++ [EvPrettyDiff sB sA; EvGetDiffPatch ma mb] ∧
    (∃ bm pm, pre = [EvApplyDiffPatch bm pm]) ∧
    cache (self (resolved scenarioA)) !! "serialBefore" = Some sB ∧
    cache (self (resolved scenarioA)) !! "serialAfter" = Some sA ∧
    Marshal sA = Ok ma ∧ Marshal sB = Ok mb ∧
    PrettyDiff sB sA = Ok (prettyDiff (self (resolved scenarioA))) ∧
    GetDiffPatch ma mb = Ok (rollback (self (resolved scenarioA))).
Proof.
  split; [vm_compute; reflexivity|].
  apply (SolveChange_calls (H:=deps) (fresh scenarioA) (resolved scenarioA)).
  vm_compute; reflexivity.
Defined.

(** Scenario B resolves the same under any instruction. *)
Lemma instruction_unused_witness :
  command scenarioB = MigratorAdd ∧
  SolveChange (with_instruction "ignored" (fresh scenarioB)) =
  (let (r, w') := SolveChange (fresh scenarioB) in
   (r, with_instruction "ignored" w')).
Proof.
  split; [reflexivity|].
  apply (instruction_unused (H:=deps) "ignored" (fresh scenarioB)).
  left. right. left. reflexivity.
Defined.

(** Scenario B can be resolved again. *)
Lemma SolveChange_repeatable_witness :
  command scenarioB = MigratorAdd ∧
  SolveChange (fresh scenarioB) = (None, resolved scenarioB) ∧
  ∃ evs, SolveChange (resolved scenarioB) =
    (None, after_calls evs (resolved scenarioB)).
Proof.
  split; [reflexivity|]. split; [vm_compute; reflexivity|].
  apply (SolveChange_repeatable (H:=deps) (fresh scenarioB) (resolved scenarioB) None).
  - left. right. left. reflexivity.
  - vm_compute; reflexivity.
Defined.

(** Scenario A, resolved to a Set, resolved again. *)
Lemma SolveChange_twice_Unknown_witness :
  command scenarioA = MigratorUnknown ∧
  SolveChange (fresh scenarioA) = (None, resolved scenarioA) ∧
  ∃ evs, SolveChange (resolved scenarioA) =
    (None,
     {| self := set_after (match command (self (resolved scenarioA)) with
                           | MigratorSet => patch (self (resolved scenarioA))
                           | _ => Some ∅
                           end) (self (resolved scenarioA));
        trace := trace (resolved scenarioA) ++ evs |}).
Proof.
  split; [reflexivity|]. split; [vm_compute; reflexivity|].
  apply (SolveChange_twice_Unknown (H:=deps) (fresh scenarioA) (resolved scenarioA)).
  - reflexivity.
  - vm_compute; reflexivity.
Defined.

End Runs.

